(** * The JSON extractor of json-extractor-server.js

    A shallow embedding of [extractJson] (src/json-extractor-server.js,
    lines 19-50) and of the two handlers of [/extract] (lines 53-125),
    together with the parts of the JavaScript runtime they call:
    [String.prototype.match] on the two regular-expression literals,
    [JSON.parse], [JSON.stringify] and [console.error].

    - A JavaScript string is a list of UTF-16 code units ([N]).
    - A regular expression is a syntax tree run by a backtracking matcher
      in continuation-passing style, as ECMA-262 specifies it.
    - [JSON.parse] is a recursive-descent parser for the JSON grammar of
      ECMA-404; a failure stands for the [SyntaxError] it throws.  A
      number is kept as the literal that was read.
    - [JSON.stringify] is left to the runtime: a function that returns a
      text or raises a RangeError.
    - A computation of the program is a function from the console to a
      completion (normal or abrupt) and the console after it.  Where the
      state of RegExp objects matters the console comes with the RegExp
      objects alive, their flags and their [lastIndex]. *)

From Stdlib Require Import String Ascii List NArith ZArith Arith Bool Lia.
Import ListNotations.

Set Implicit Arguments.

(** ** Strings *)

Definition codeunit := N.
Definition jsstring := list codeunit.

(** The code units of an ASCII literal. *)
Definition js (s : string) : jsstring :=
  map N_of_ascii (list_ascii_of_string s).

Definition TAB : codeunit := 9%N.
Definition LF : codeunit := 10%N.
Definition CR : codeunit := 13%N.
Definition SP : codeunit := 32%N.
Definition dquote : codeunit := 34%N.
Definition backslash : codeunit := 92%N.
Definition backtick : codeunit := 96%N.
Definition lbrace : codeunit := 123%N.
Definition rbrace : codeunit := 125%N.

(** A literal in double quotes. *)
Definition quoted (s : string) : jsstring := dquote :: js s ++ [dquote].

Fixpoint is_prefix (p s : jsstring) : bool :=
  match p, s with
  | [], _ => true
  | _ :: _, [] => false
  | a :: p', b :: s' => N.eqb a b && is_prefix p' s'
  end.

Fixpoint dropwhile (p : codeunit -> bool) (s : jsstring) : jsstring :=
  match s with
  | [] => []
  | c :: s' => if p c then dropwhile p s' else s
  end.

(** ** Regular expressions *)

Module RegExp.

(** The syntax the two patterns of the program need.  A quantifier is
    applied to a character class only, as in both patterns; there is one
    capturing group. *)
Inductive regex : Type :=
| Eps
| Char (c : codeunit)
| Class (p : codeunit -> bool)
| Cat (r1 r2 : regex)
| Opt (r : regex)
| Star (p : codeunit -> bool)
| LazyStar (p : codeunit -> bool)
| Group (r : regex).

(** [\s]: WhiteSpace and LineTerminator of ECMA-262. *)
Definition is_space (c : codeunit) : bool :=
  (N.leb 9 c && N.leb c 13) || N.eqb c 32 || N.eqb c 160 || N.eqb c 5760
  || (N.leb 8192 c && N.leb c 8202) || N.eqb c 8232 || N.eqb c 8233
  || N.eqb c 8239 || N.eqb c 8287 || N.eqb c 12288 || N.eqb c 65279.

(** [[\s\S]]: every code unit. *)
Definition any (c : codeunit) : bool := is_space c || negb (is_space c).

Fixpoint lit (l : jsstring) : regex :=
  match l with
  | [] => Eps
  | c :: l' => Cat (Char c) (lit l')
  end.

(** What a successful match leaves: the capture and the rest of the input
    after the match. *)
Definition state := (option jsstring * jsstring)%type.
Definition cont := jsstring -> option jsstring -> option state.

Section Quantifiers.
Variable p : codeunit -> bool.
Variable k : jsstring -> option state.

(** [p*]: one more character first, the continuation when that fails. *)
Fixpoint star_greedy (s : jsstring) : option state :=
  match s with
  | c :: s' =>
      if p c then
        match star_greedy s' with
        | Some r => Some r
        | None => k s
        end
      else k s
  | [] => k []
  end.

(** [p*?]: the continuation first, one more character when that fails. *)
Fixpoint star_lazy (s : jsstring) : option state :=
  match k s with
  | Some r => Some r
  | None =>
      match s with
      | c :: s' => if p c then star_lazy s' else None
      | [] => None
      end
  end.
End Quantifiers.

(** The matcher of pattern [r] at input [s] with capture [cap] and
    continuation [k]. *)
Fixpoint m (r : regex) (s : jsstring) (cap : option jsstring) (k : cont)
  : option state :=
  match r with
  | Eps => k s cap
  | Char c =>
      match s with
      | x :: s' => if N.eqb x c then k s' cap else None
      | [] => None
      end
  | Class p =>
      match s with
      | x :: s' => if p x then k s' cap else None
      | [] => None
      end
  | Cat r1 r2 => m r1 s cap (fun s' cap' => m r2 s' cap' k)
  | Opt r1 =>
      match m r1 s cap k with
      | Some res => Some res
      | None => k s cap
      end
  | Star p => star_greedy p (fun s' => k s' cap) s
  | LazyStar p => star_lazy p (fun s' => k s' cap) s
  | Group r1 =>
      m r1 s cap (fun s' _ => k s' (Some (firstn (length s - length s') s)))
  end.

Definition accept : cont := fun s cap => Some (cap, s).

(** The array [String.prototype.match] returns for a pattern without the
    g flag: the matched text at index 0, the capture at index 1. *)
Record match_array := MatchArray { at0 : jsstring; at1 : option jsstring }.

Definition match_at (r : regex) (s : jsstring) : option match_array :=
  match m r s None accept with
  | Some (cap, rest) =>
      Some (MatchArray (firstn (length s - length rest) s) cap)
  | None => None
  end.

(** The match is tried at every index from 0 to the length of the text. *)
Fixpoint exec (r : regex) (s : jsstring) : option match_array :=
  match match_at r s with
  | Some a => Some a
  | None =>
      match s with
      | [] => None
      | _ :: s' => exec r s'
      end
  end.

End RegExp.

Definition String_match (text : jsstring) (r : RegExp.regex)
  : option RegExp.match_array := RegExp.exec r text.

Import RegExp.

Definition fence : jsstring := [backtick; backtick; backtick].

(** [/```(?:json)?\s*(\{[\s\S]*?\})\s*```/] *)
Definition jsonRegex : regex :=
  Cat (lit fence)
    (Cat (Opt (lit (js "json")))
       (Cat (Star is_space)
          (Cat (Group (Cat (Char lbrace) (Cat (LazyStar any) (Char rbrace))))
             (Cat (Star is_space) (lit fence))))).

(** Its group, and what follows the group. *)
Definition body_re : regex :=
  Group (Cat (Char lbrace) (Cat (LazyStar any) (Char rbrace))).
Definition close_re : regex := Cat (Star is_space) (lit fence).

(** [/(\{[\s\S]*\})/] *)
Definition fallbackRegex : regex :=
  Group (Cat (Char lbrace) (Cat (Star any) (Char rbrace))).

(** ** JSON *)

Module JSON.

(** A JSON value.  A number is kept as its numeric literal: the float64
    it denotes is a function of the literal, computed by the runtime, so
    equal literals denote equal numbers.  An object is the list of its
    members in source order; the object of the runtime is a function of
    that list (the last member of a name wins). *)
#[warnings="-register-all"]
Inductive value : Type :=
| JNull
| JBool (b : bool)
| JNum (literal : jsstring)
| JStr (s : jsstring)
| JArr (elements : list value)
| JObj (members : list (jsstring * value)).

(** Induction on a value and, with it, on the values it holds. *)
Section ValueInduction.
Variable P : value -> Prop.
Hypothesis Hnull : P JNull.
Hypothesis Hbool : forall b, P (JBool b).
Hypothesis Hnum : forall l, P (JNum l).
Hypothesis Hstr : forall s, P (JStr s).
Hypothesis Harr : forall vs, Forall P vs -> P (JArr vs).
Hypothesis Hobj : forall ms, Forall (fun kv => P (snd kv)) ms -> P (JObj ms).

Fixpoint value_induction (v : value) : P v :=
  match v with
  | JNull => Hnull
  | JBool b => Hbool b
  | JNum l => Hnum l
  | JStr s => Hstr s
  | JArr vs =>
      @Harr vs
        ((fix all (l : list value) : Forall P l :=
            match l with
            | [] => Forall_nil P
            | x :: l' => Forall_cons x (value_induction x) (all l')
            end) vs)
  | JObj ms =>
      @Hobj ms
        ((fix all (l : list (jsstring * value))
            : Forall (fun kv => P (snd kv)) l :=
            match l with
            | [] => Forall_nil _
            | kv :: l' => Forall_cons kv (value_induction (snd kv)) (all l')
            end) ms)
  end.
End ValueInduction.

Inductive result (A : Type) : Type :=
| Ok (a : A) (rest : jsstring)
| Bad
| OutOfFuel.
Arguments Bad {A}.
Arguments OutOfFuel {A}.

Definition bind {A B : Type} (r : result A) (f : A -> jsstring -> result B)
  : result B :=
  match r with
  | Ok a rest => f a rest
  | Bad => Bad
  | OutOfFuel => OutOfFuel
  end.

Definition lbracket : codeunit := 91%N.
Definition rbracket : codeunit := 93%N.
Definition comma : codeunit := 44%N.
Definition colon : codeunit := 58%N.
Definition minus : codeunit := 45%N.
Definition plus : codeunit := 43%N.
Definition dot : codeunit := 46%N.
Definition zero : codeunit := 48%N.
Definition slash : codeunit := 47%N.

(** JSONWhiteSpace: tab, line feed, carriage return, space. *)
Definition is_ws (c : codeunit) : bool :=
  N.eqb c TAB || N.eqb c LF || N.eqb c CR || N.eqb c SP.

Definition skip_ws (s : jsstring) : jsstring := dropwhile is_ws s.

Definition is_digit (c : codeunit) : bool := N.leb 48 c && N.leb c 57.

(** *** Strings *)

Definition hex_value (c : codeunit) : option N :=
  if N.leb 48 c && N.leb c 57 then Some (c - 48)%N
  else if N.leb 97 c && N.leb c 102 then Some (c - 87)%N
  else if N.leb 65 c && N.leb c 70 then Some (c - 55)%N
  else None.

Definition hex4 (a b c d : codeunit) : option codeunit :=
  match hex_value a, hex_value b, hex_value c, hex_value d with
  | Some x, Some y, Some z, Some w => Some (4096 * x + 256 * y + 16 * z + w)%N
  | _, _, _, _ => None
  end.

(** The character a single-character escape stands for. *)
Definition unescape (e : codeunit) : option codeunit :=
  if N.eqb e dquote then Some dquote
  else if N.eqb e backslash then Some backslash
  else if N.eqb e slash then Some slash
  else if N.eqb e 98 then Some 8%N
  else if N.eqb e 102 then Some 12%N
  else if N.eqb e 110 then Some LF
  else if N.eqb e 114 then Some CR
  else if N.eqb e 116 then Some TAB
  else None.

Definition cons_to (c : codeunit) (r : option (jsstring * jsstring))
  : option (jsstring * jsstring) :=
  match r with
  | Some (str, rest) => Some (c :: str, rest)
  | None => None
  end.

(** The characters of a string after its opening quote, up to the closing
    quote, and the input after it. *)
Fixpoint lex_string (s : jsstring) : option (jsstring * jsstring) :=
  match s with
  | [] => None
  | c :: r =>
      if N.eqb c dquote then Some ([], r)
      else if N.eqb c backslash then
        match r with
        | [] => None
        | e :: r1 =>
            if N.eqb e 117 then
              match r1 with
              | h1 :: h2 :: h3 :: h4 :: r2 =>
                  match hex4 h1 h2 h3 h4 with
                  | Some u => cons_to u (lex_string r2)
                  | None => None
                  end
              | _ => None
              end
            else
              match unescape e with
              | Some x => cons_to x (lex_string r1)
              | None => None
              end
        end
      else if N.ltb c 32 then None
      else cons_to c (lex_string r)
  end.

(** *** Numbers *)

Fixpoint span_digits (s : jsstring) : jsstring * jsstring :=
  match s with
  | c :: r =>
      if is_digit c then let (ds, rest) := span_digits r in (c :: ds, rest)
      else ([], s)
  | [] => ([], [])
  end.

(** [0] or a non-zero digit followed by digits. *)
Definition lex_int (s : jsstring) : option (jsstring * jsstring) :=
  match s with
  | c :: r =>
      if N.eqb c zero then Some ([c], r)
      else if is_digit c then let (ds, rest) := span_digits r in Some (c :: ds, rest)
      else None
  | [] => None
  end.

(** [.] and at least one digit, when present. *)
Definition lex_frac (s : jsstring) : jsstring * jsstring :=
  match s with
  | c :: d :: r =>
      if N.eqb c dot && is_digit d then
        let (ds, rest) := span_digits r in (c :: d :: ds, rest)
      else ([], s)
  | _ => ([], s)
  end.

(** [e] or [E], an optional sign and at least one digit, when present. *)
Definition lex_exp (s : jsstring) : jsstring * jsstring :=
  match s with
  | e :: d :: r =>
      if N.eqb e 101 || N.eqb e 69 then
        if is_digit d then
          let (ds, rest) := span_digits r in (e :: d :: ds, rest)
        else if N.eqb d plus || N.eqb d minus then
          match r with
          | d' :: r' =>
              if is_digit d' then
                let (ds, rest) := span_digits r' in (e :: d :: d' :: ds, rest)
              else ([], s)
          | [] => ([], s)
          end
        else ([], s)
      else ([], s)
  | _ => ([], s)
  end.

Definition lex_unsigned (s : jsstring) : option (jsstring * jsstring) :=
  match lex_int s with
  | Some (i, r1) =>
      let (f, r2) := lex_frac r1 in
      let (e, r3) := lex_exp r2 in
      Some (i ++ f ++ e, r3)
  | None => None
  end.

(** The longest numeric literal at the head of the input. *)
Definition lex_number (s : jsstring) : option (jsstring * jsstring) :=
  match s with
  | c :: r =>
      if N.eqb c minus then cons_to c (lex_unsigned r) else lex_unsigned s
  | [] => None
  end.

(** *** Values *)

(** [true], [false], [null] or a number. *)
Definition lex_literal (s : jsstring) : result value :=
  if is_prefix (js "true") s then Ok (JBool true) (skipn 4 s)
  else if is_prefix (js "false") s then Ok (JBool false) (skipn 5 s)
  else if is_prefix (js "null") s then Ok JNull (skipn 4 s)
  else
    match lex_number s with
    | Some (l, r) => Ok (JNum l) r
    | None => Bad
    end.

Fixpoint parse_value (fuel : nat) (s : jsstring) : result value :=
  match fuel with
  | O => OutOfFuel
  | S fuel' =>
      match skip_ws s with
      | [] => Bad
      | c :: r =>
          if N.eqb c lbrace then
            match skip_ws r with
            | [] => Bad
            | c' :: r' =>
                if N.eqb c' rbrace then Ok (JObj []) r'
                else bind (parse_members fuel' r) (fun ms rest => Ok (JObj ms) rest)
            end
          else if N.eqb c lbracket then
            match skip_ws r with
            | [] => Bad
            | c' :: r' =>
                if N.eqb c' rbracket then Ok (JArr []) r'
                else bind (parse_elements fuel' r) (fun vs rest => Ok (JArr vs) rest)
            end
          else if N.eqb c dquote then
            match lex_string r with
            | Some (str, rest) => Ok (JStr str) rest
            | None => Bad
            end
          else lex_literal (c :: r)
      end
  end

with parse_elements (fuel : nat) (s : jsstring) : result (list value) :=
  match fuel with
  | O => OutOfFuel
  | S fuel' =>
      bind (parse_value fuel' s) (fun v rest =>
        match skip_ws rest with
        | [] => Bad
        | c :: r =>
            if N.eqb c comma then
              bind (parse_elements fuel' r) (fun vs rest' => Ok (v :: vs) rest')
            else if N.eqb c rbracket then Ok [v] r
            else Bad
        end)
  end

with parse_members (fuel : nat) (s : jsstring)
  : result (list (jsstring * value)) :=
  match fuel with
  | O => OutOfFuel
  | S fuel' =>
      match skip_ws s with
      | [] => Bad
      | q :: r =>
          if N.eqb q dquote then
            match lex_string r with
            | None => Bad
            | Some (key, r1) =>
                match skip_ws r1 with
                | [] => Bad
                | c :: r2 =>
                    if N.eqb c colon then
                      bind (parse_value fuel' r2) (fun v rest =>
                        match skip_ws rest with
                        | [] => Bad
                        | c' :: r3 =>
                            if N.eqb c' comma then
                              bind (parse_members fuel' r3)
                                (fun ms rest' => Ok ((key, v) :: ms) rest')
                            else if N.eqb c' rbrace then Ok [(key, v)] r3
                            else Bad
                        end)
                    else Bad
                end
            end
          else Bad
      end
  end.

(** The exceptions the program can meet. *)
Inductive exn : Type := SyntaxError.

(** [JSON.parse(text)] without a reviver: the value of the text, or the
    [SyntaxError] thrown when the text is not a JSON text.  The fuel is
    more than the parsers use on a text of this length
    ([JSONFacts.parse_fuel_enough]). *)
Definition parse (text : jsstring) : exn + value :=
  match parse_value (2 * length text + 1) text with
  | Ok v rest =>
      match skip_ws rest with
      | [] => inr v
      | _ :: _ => inl SyntaxError
      end
  | Bad => inl SyntaxError
  | OutOfFuel => inl SyntaxError
  end.

(** *** Serialization *)

Definition hex_digit (n : N) : codeunit :=
  if N.ltb n 10 then (48 + n)%N else (87 + n)%N.

(** [\uXXXX] with lower-case digits. *)
Definition unicode_escape (c : codeunit) : jsstring :=
  [backslash; 117%N;
   hex_digit (c / 4096); hex_digit ((c / 256) mod 16);
   hex_digit ((c / 16) mod 16); hex_digit (c mod 16)].

Definition is_high_surrogate (c : codeunit) : bool :=
  N.leb 55296 c && N.leb c 56319.
Definition is_low_surrogate (c : codeunit) : bool :=
  N.leb 56320 c && N.leb c 57343.

(** One code unit of QuoteJSONString that is not a surrogate. *)
Definition quote_unit (c : codeunit) : jsstring :=
  if N.eqb c 8 then [backslash; 98%N]
  else if N.eqb c TAB then [backslash; 116%N]
  else if N.eqb c LF then [backslash; 110%N]
  else if N.eqb c 12 then [backslash; 102%N]
  else if N.eqb c CR then [backslash; 114%N]
  else if N.eqb c dquote then [backslash; dquote]
  else if N.eqb c backslash then [backslash; backslash]
  else if N.ltb c 32 then unicode_escape c
  else [c].

(** The characters of QuoteJSONString between the quotes: a surrogate
    pair is copied, a lone surrogate is escaped. *)
Fixpoint quote_units (s : jsstring) : jsstring :=
  match s with
  | [] => []
  | c :: r =>
      if is_high_surrogate c then
        match r with
        | d :: r' =>
            if is_low_surrogate d then c :: d :: quote_units r'
            else unicode_escape c ++ quote_units r
        | [] => unicode_escape c
        end
      else if is_low_surrogate c then unicode_escape c ++ quote_units r
      else quote_unit c ++ quote_units r
  end.

Definition quote (s : jsstring) : jsstring :=
  dquote :: quote_units s ++ [dquote].

(** The compact text of a JSON tree: its tokens without whitespace, a
    number written with the literal the tree holds.  This is a way to
    write texts down, not the [JSON.stringify] of the runtime, which
    prints the float64 of a number ([-0] as [0], [1.0] as [1]) and can
    raise on a deep value.  Strings are quoted as QuoteJSONString does:
    for a tree that holds no number, with the members of each object in
    enumeration order and no name twice, it is the text
    [JSON.stringify] prints. *)
Fixpoint compact (v : value) : jsstring :=
  match v with
  | JNull => js "null"
  | JBool true => js "true"
  | JBool false => js "false"
  | JNum l => l
  | JStr s => quote s
  | JArr vs =>
      lbracket ::
      (fix elements (l : list value) : jsstring :=
         match l with
         | [] => []
         | [x] => compact x
         | x :: l' => compact x ++ comma :: elements l'
         end) vs ++ [rbracket]
  | JObj ms =>
      lbrace ::
      (fix members (l : list (jsstring * value)) : jsstring :=
         match l with
         | [] => []
         | [(k, x)] => quote k ++ colon :: compact x
         | (k, x) :: l' => quote k ++ colon :: compact x ++ comma :: members l'
         end) ms ++ [rbrace]
  end.

Fixpoint compact_elements (l : list value) : jsstring :=
  match l with
  | [] => []
  | [x] => compact x
  | x :: l' => compact x ++ comma :: compact_elements l'
  end.

Fixpoint compact_members (l : list (jsstring * value)) : jsstring :=
  match l with
  | [] => []
  | [(k, x)] => quote k ++ colon :: compact x
  | (k, x) :: l' =>
      quote k ++ colon :: compact x ++ comma :: compact_members l'
  end.

(** A character a serialization can start with: not whitespace, not a
    closing bracket. *)
Definition value_head (c : codeunit) : Prop :=
  is_ws c = false /\ N.eqb c rbracket = false.

(** A character no numeric literal goes on with. *)
Definition number_stop (c : codeunit) : bool :=
  negb (is_digit c || N.eqb c dot || N.eqb c 101 || N.eqb c 69
        || N.eqb c plus || N.eqb c minus).

(** The input ends here or goes on with such a character. *)
Definition delimited (rest : jsstring) : bool :=
  match rest with
  | [] => true
  | c :: _ => number_stop c
  end.

(** A numeric literal of the JSON grammar. *)
Definition is_number (l : jsstring) : bool :=
  match lex_number l with
  | Some (_, []) => true
  | _ => false
  end.

(** The trees whose compact text is a JSON text: every number is a
    numeric literal. *)
Fixpoint valid (v : value) : bool :=
  match v with
  | JNum l => is_number l
  | JArr vs => forallb valid vs
  | JObj ms => forallb (fun kv => valid (snd kv)) ms
  | _ => true
  end.

(** With enough fuel, the serialization of [v] is read back as [v] and
    what follows it is left. *)
Definition reads_back (v : value) : Prop :=
  valid v = true ->
  forall fuel rest,
    delimited rest = true ->
    2 * length (compact v ++ rest) < fuel ->
    parse_value fuel (compact v ++ rest) = Ok v rest.

(** A result that is not a lack of fuel and leaves less than [n]
    characters. *)
Definition fine {A : Type} (n : nat) (r : result A) : Prop :=
  match r with
  | Ok _ rest => length rest < n
  | Bad => True
  | OutOfFuel => False
  end.

Definition is_object (v : value) : bool :=
  match v with
  | JObj _ => true
  | _ => false
  end.

End JSON.

Import JSON.

(** ** Computations *)

Inductive completion (A : Type) : Type :=
| Normal (a : A)
| Throw (e : exn).
Arguments Throw {A}.

(** What [console.error] has written: the label and the error of each call. *)
Definition console := list (jsstring * exn).

Definition M (A : Type) : Type := console -> completion A * console.

Definition ret {A : Type} (a : A) : M A := fun w => (Normal a, w).

Definition bindM {A B : Type} (c : M A) (f : A -> M B) : M B :=
  fun w =>
    match c w with
    | (Normal a, w') => f a w'
    | (Throw e, w') => (Throw e, w')
    end.

Notation "x <- c ;; k" := (bindM c (fun x => k))
  (at level 61, c at next level, right associativity).

Definition try_catch {A : Type} (body : M A) (handler : exn -> M A) : M A :=
  fun w =>
    match body w with
    | (Normal a, w') => (Normal a, w')
    | (Throw e, w') => handler e w'
    end.

Definition console_error (label : jsstring) (e : exn) : M unit :=
  fun w => (Normal tt, w ++ [(label, e)]).

Definition JSON_parse (text : jsstring) : M value :=
  fun w =>
    match JSON.parse text with
    | inr v => (Normal v, w)
    | inl e => (Throw e, w)
    end.

(** ** The extractor *)

(** [match && match[1]]: the capture when the match exists and the
    capture is a non-empty string. *)
Definition matched_group (mt : option match_array) : option jsstring :=
  match mt with
  | Some a =>
      match at1 a with
      | Some (c :: g) => Some (c :: g)
      | _ => None
      end
  | None => None
  end.

(** [extractJson], lines 19-50.  The outer [try] holds the whole body;
    its [catch] writes the error and returns [null].  The inner [try]
    (lines 37-42) either leaves the function with the parsed value or is
    left through its empty [catch], after which line 45 returns [null]. *)
Definition extractJson (text : jsstring) : M value :=
  try_catch
    (let match_ := String_match text jsonRegex in
     match matched_group match_ with
     | Some jsonString =>
         parsedJson <- JSON_parse jsonString ;;
         ret parsedJson
     | None =>
         let fallbackMatch := String_match text fallbackRegex in
         match matched_group fallbackMatch with
         | Some fallbackMatch1 =>
             left_with <- try_catch
                            (parsedJson <- JSON_parse fallbackMatch1 ;;
                             ret (Some parsedJson))
                            (fun _ => ret None) ;;
             match left_with with
             | Some parsedJson => ret parsedJson
             | None => ret JNull
             end
         | None => ret JNull
         end
     end)
    (fun error =>
       _ <- console_error (js "Error extracting JSON:") error ;;
       ret JNull).

(** ** The words of the specification *)

Fixpoint index_of (c : codeunit) (s : jsstring) : option nat :=
  match s with
  | [] => None
  | x :: r => if N.eqb x c then Some 0 else option_map S (index_of c r)
  end.

Fixpoint last_index_of (c : codeunit) (s : jsstring) : option nat :=
  match s with
  | [] => None
  | x :: r =>
      match last_index_of c r with
      | Some j => Some (S j)
      | None => if N.eqb x c then Some 0 else None
      end
  end.

(** [s.substring(i, j)] *)
Definition substring (s : jsstring) (i j : nat) : jsstring :=
  firstn (j - i) (skipn i s).

(** The span of the fallback search as the specification words it: from
    the first opening brace to the last closing brace of the whole text. *)
Definition first_to_last_brace (text : jsstring) : option jsstring :=
  match index_of lbrace text, last_index_of rbrace text with
  | Some i, Some j => if i <? j then Some (substring text i (S j)) else None
  | _, _ => None
  end.

(** The indices at which [pat] occurs in [s]. *)
Fixpoint positions_from (i : nat) (pat s : jsstring) : list nat :=
  match s with
  | [] => []
  | _ :: r =>
      (if is_prefix pat s then [i] else []) ++ positions_from (S i) pat r
  end.

Definition positions (pat s : jsstring) : list nat := positions_from 0 pat s.

(** Optional whitespace and a fence come next. *)
Definition closes_block (s : jsstring) : bool :=
  is_prefix fence (dropwhile is_space s).

(** Some closing brace of [s] is followed by optional whitespace and a
    fence. *)
Fixpoint early_close (s : jsstring) : bool :=
  match s with
  | [] => false
  | c :: r => (N.eqb c rbrace && closes_block r) || early_close r
  end.

Definition no_braces (s : jsstring) : bool :=
  forallb (fun c => negb (N.eqb c lbrace) && negb (N.eqb c rbrace)) s.

(** How a computation completes when started on console [w]. *)
Definition returned {A : Type} (c : M A) (w : console) : completion A :=
  fst (c w).

(** ** Texts and statements of the specification *)

(** The compact text of [J] between ["```json\n"] and ["\n```"]. *)
Definition fenced_json (J : value) : jsstring :=
  fence ++ js "json" ++ [LF] ++ compact J ++ [LF] ++ fence.

(** A fenced block with the body [{a:1}]. *)
Definition text_invalid_fenced : jsstring :=
  fence ++ js "json" ++ [LF] ++ js "{a:1}" ++ [LF] ++ fence.

(** [prefix {"a":1} suffix] *)
Definition text_prefix_suffix : jsstring :=
  js "prefix {" ++ quoted "a" ++ js ":1} suffix".

(** [{a:1} and {"b":2}] *)
Definition text_two_objects : jsstring :=
  js "{a:1} and {" ++ quoted "b" ++ js ":2}".

(** [{"x": "```{a}```"}]: a JSON object whose string holds a fenced
    block with an invalid body. *)
Definition text_fence_in_string : jsstring :=
  js "{" ++ quoted "x" ++ js ": " ++ [dquote] ++ fence ++ js "{a}"
    ++ fence ++ [dquote] ++ js "}".

(** [Here: ```json\n{"a":1}\n``` done] *)
Definition text_one_block : jsstring :=
  js "Here: " ++ fence ++ js "json" ++ [LF]
    ++ (lbrace :: (quoted "a" ++ js ":1") ++ [rbrace])
    ++ [LF] ++ fence ++ js " done".

(** The object [{"a":1}]. *)
Definition object_a1 : value := JObj [(js "a", JNum (js "1"))].


(** The lines of a text. *)
Fixpoint lines_from (cur s : jsstring) : list jsstring :=
  match s with
  | [] => [rev cur]
  | c :: r =>
      if N.eqb c LF then rev cur :: lines_from [] r
      else lines_from (c :: cur) r
  end.

Definition lines (s : jsstring) : list jsstring := lines_from [] s.

(** The object whose member [end] is the string of a closing brace, a
    space and a fence. *)
Definition object_end_fence : value :=
  JObj [(js "end", JStr (js "} ```"))].

(** A line of prose before and after the fenced serialization of that
    object. *)
Definition text_block_with_fence_in_string : jsstring :=
  js "Result:" ++ [LF] ++ fenced_json object_end_fence ++ [LF] ++ js "Done.".

(** A bare array, string or number. *)
Definition bare (v : value) : bool :=
  match v with
  | JArr _ | JStr _ | JNum _ => true
  | _ => false
  end.

(** ** RegExp objects and the world of a call *)

(** An error of the runtime: that of [JSON.parse], the TypeError of
    calling what is no function or no RegExp, the RangeError of
    [JSON.stringify] on a value too deep for it. *)
Inductive js_error : Type :=
| FromParse (e : exn)
| TypeError
| RangeError.

Inductive outcome (A : Type) : Type :=
| Done (a : A)
| Raised (e : js_error).
Arguments Raised {A}.

(** The console of the process: the label and the error of each call of
    [console.error]. *)
Definition server_console := list (jsstring * js_error).

(** A RegExp object: its pattern, its flags [g] and [y], and the
    [lastIndex] that [exec] reads and writes under these flags. *)
Record RegExpObject : Type := NewRegExp {
  re_pattern : regex;
  re_global : bool;
  re_sticky : bool;
  re_lastIndex : nat
}.

(** What a call can see of the process: the console and the RegExp
    objects alive, each named by its place in the list. *)
Record world : Type := World {
  w_console : server_console;
  w_regexps : list RegExpObject
}.

Definition W (A : Type) : Type := world -> outcome A * world.

Definition retW {A : Type} (a : A) : W A := fun w => (Done a, w).

Definition bindW {A B : Type} (c : W A) (f : A -> W B) : W B :=
  fun w =>
    match c w with
    | (Done a, w') => f a w'
    | (Raised e, w') => (Raised e, w')
    end.

Definition try_catchW {A : Type} (body : W A) (handler : js_error -> W A)
  : W A :=
  fun w =>
    match body w with
    | (Done a, w') => (Done a, w')
    | (Raised e, w') => handler e w'
    end.

Definition console_errorW (label : jsstring) (e : js_error) : W unit :=
  fun w => (Done tt, World (w_console w ++ [(label, e)]) (w_regexps w)).

Definition JSON_parseW (text : jsstring) : W value :=
  fun w =>
    match JSON.parse text with
    | inr v => (Done v, w)
    | inl e => (Raised (FromParse e), w)
    end.

(** The evaluation of a regular expression literal: a new object, with
    [lastIndex] 0, at every evaluation. *)
Definition new_RegExp (p : regex) (g y : bool) : W nat :=
  fun w =>
    (Done (length (w_regexps w)),
     World (w_console w) (w_regexps w ++ [NewRegExp p g y 0])).

Fixpoint set_nth (l : list RegExpObject) (R : nat) (o : RegExpObject)
  : list RegExpObject :=
  match l, R with
  | [], _ => []
  | _ :: l', O => o :: l'
  | x :: l', S R' => x :: set_nth l' R' o
  end.

(** [R.lastIndex = n] *)
Definition set_lastIndex (R n : nat) (w : world) : world :=
  match nth_error (w_regexps w) R with
  | Some o =>
      World (w_console w)
        (set_nth (w_regexps w) R
           (NewRegExp (re_pattern o) (re_global o) (re_sticky o) n))
  | None => w
  end.

(** The search of RegExpBuiltinExec on the input from index [i] on: the
    match and the index where it ends.  A sticky search tries index [i]
    only. *)
Fixpoint scan (r : regex) (sticky : bool) (s : jsstring) (i : nat)
  : option (match_array * nat) :=
  match match_at r s with
  | Some a => Some (a, i + length (at0 a))
  | None =>
      if sticky then None
      else
        match s with
        | [] => None
        | _ :: s' => scan r sticky s' (S i)
        end
  end.

(** RegExpBuiltinExec(R, S) of ECMA-262: the search starts at
    [lastIndex] under the flag [g] or [y] and at 0 otherwise; under
    these flags [lastIndex] is set to the end of the match, or to 0 when
    there is none. *)
Definition RegExpBuiltinExec (R : nat) (input : jsstring)
  : W (option match_array) :=
  fun w =>
    match nth_error (w_regexps w) R with
    | None => (Raised TypeError, w)
    | Some o =>
        let stateful := re_global o || re_sticky o in
        let start := if stateful then re_lastIndex o else 0 in
        let found :=
          if length input <? start then None
          else scan (re_pattern o) (re_sticky o) (skipn start input) start in
        match found with
        | Some (a, e) =>
            (Done (Some a), if stateful then set_lastIndex R e w else w)
        | None => (Done None, if stateful then set_lastIndex R 0 w else w)
        end
    end.

(** [RegExp.prototype[Symbol.match]]: without the flag [g] one call of
    exec; with it, the array of the matched texts of all matches, of
    which the program can read the first two, and [lastIndex] left at 0
    by the exec that finds no more. *)
Definition Symbol_match (R : nat) (input : jsstring) : W (option match_array) :=
  fun w =>
    match nth_error (w_regexps w) R with
    | None => (Raised TypeError, w)
    | Some o =>
        if negb (re_global o) then RegExpBuiltinExec R input w
        else
          bindW (RegExpBuiltinExec R input) (fun first =>
            match first with
            | None => retW None
            | Some a0 =>
                bindW (fun w1 =>
                         match at0 a0, nth_error (w_regexps w1) R with
                         | [], Some o1 =>
                             (Done tt,
                              set_lastIndex R (S (re_lastIndex o1)) w1)
                         | _, _ => (Done tt, w1)
                         end)
                  (fun _ =>
                     bindW (RegExpBuiltinExec R input) (fun second =>
                       fun w2 =>
                         (Done (Some (MatchArray (at0 a0)
                                        (option_map at0 second))),
                          set_lastIndex R 0 w2)))
            end) (set_lastIndex R 0 w)
    end.

(** [text.match(regexp)] on a RegExp object. *)
Definition String_prototype_match (text : jsstring) (regexp : nat)
  : W (option match_array) := Symbol_match regexp text.

(** [extractJson], lines 19-50, in the world: each of the two literals
    is evaluated to a RegExp object when control reaches it (lines 22
    and 33), and [match] runs on that object. *)
Definition extractJson_in_world (text : jsstring) : W value :=
  try_catchW
    (bindW (new_RegExp jsonRegex false false) (fun jsonRegex_ =>
     bindW (String_prototype_match text jsonRegex_) (fun match_ =>
       match matched_group match_ with
       | Some jsonString =>
           bindW (JSON_parseW jsonString) (fun parsedJson =>
           retW parsedJson)
       | None =>
           bindW (new_RegExp fallbackRegex false false) (fun fallbackRegex_ =>
           bindW (String_prototype_match text fallbackRegex_)
             (fun fallbackMatch =>
                match matched_group fallbackMatch with
                | Some fallbackMatch1 =>
                    bindW (try_catchW
                             (bindW (JSON_parseW fallbackMatch1)
                                (fun parsedJson => retW (Some parsedJson)))
                             (fun _ => retW None))
                      (fun left_with =>
                         match left_with with
                         | Some parsedJson => retW parsedJson
                         | None => retW JNull
                         end)
                | None => retW JNull
                end))
       end)))
    (fun error =>
       bindW (console_errorW (js "Error extracting JSON:") error) (fun _ =>
       retW JNull)).

(** The lines of the extractor as lines of the process. *)
Definition lifted (out : console) : server_console :=
  map (fun le => (fst le, FromParse (snd le))) out.

(** ** The routes *)

(** What a handler finds in [req.body] or [req.query.text]: [undefined]
    ([None]) or a value built from JSON data.  An object is the list of
    its own properties in enumeration order. *)
Definition jsvalue := option value.

(** What this development leaves to the runtime: [ToBoolean] of the
    number a numeric literal denotes, the [message] of an error, and
    [JSON.stringify]: the text it returns for a value, or [None] where
    it raises a RangeError (a value too deep for it). *)
Record runtime : Type := Runtime {
  number_truthy : jsstring -> bool;
  error_message : js_error -> jsstring;
  rt_stringify : value -> option jsstring
}.

Fixpoint jsstring_eqb (a b : jsstring) : bool :=
  match a, b with
  | [], [] => true
  | x :: a', y :: b' => N.eqb x y && jsstring_eqb a' b'
  | _, _ => false
  end.

(** [o[name]] on the properties of an object. *)
Fixpoint get (name : jsstring) (ms : list (jsstring * value)) : jsvalue :=
  match ms with
  | [] => None
  | (k, v) :: r => if jsstring_eqb k name then Some v else get name r
  end.

(** [ToBoolean] *)
Definition truthy (rt : runtime) (v : jsvalue) : bool :=
  match v with
  | None => false
  | Some JNull => false
  | Some (JBool b) => b
  | Some (JNum l) => number_truthy rt l
  | Some (JStr s) => match s with [] => false | _ :: _ => true end
  | Some (JArr _) => true
  | Some (JObj _) => true
  end.

(** [b.text] on a value that is neither [null] nor [undefined]. *)
Definition text_of (b : value) : jsvalue :=
  match b with
  | JObj ms => get (js "text") ms
  | _ => None
  end.

(** [typeof b === "object"] *)
Definition is_typeof_object (b : value) : bool :=
  match b with
  | JNull | JArr _ | JObj _ => true
  | _ => false
  end.

(** [Object.values(b)[0]] on an object or an array. *)
Definition first_value (b : value) : jsvalue :=
  match b with
  | JObj ((_, v) :: _) => Some v
  | JArr (v :: _) => Some v
  | _ => None
  end.

Definition H (A : Type) : Type := server_console -> outcome A * server_console.

Definition retH {A : Type} (a : A) : H A := fun w => (Done a, w).

Definition bindH {A B : Type} (c : H A) (f : A -> H B) : H B :=
  fun w =>
    match c w with
    | (Done a, w') => f a w'
    | (Raised e, w') => (Raised e, w')
    end.

Definition try_catchH {A : Type} (body : H A) (handler : js_error -> H A)
  : H A :=
  fun w =>
    match body w with
    | (Done a, w') => (Done a, w')
    | (Raised e, w') => handler e w'
    end.

Definition console_errorH (label : jsstring) (e : js_error) : H unit :=
  fun w => (Done tt, w ++ [(label, e)]).

(** A computation of the extractor run in the server: what it appends to
    its console is appended to the console of the server. *)
Definition lift {A : Type} (c : M A) : H A :=
  fun w =>
    match fst (c []) with
    | Normal a => (Done a, w ++ lifted (snd (c [])))
    | Throw e => (Raised (FromParse e), w ++ lifted (snd (c [])))
    end.

(** [extractJson(input)] as the handlers call it.  On a value that is no
    string, [text.match] is no function: the TypeError of line 23 is
    caught at line 46, written, and the call returns [null]. *)
Definition call_extractJson (input : value) : H value :=
  match input with
  | JStr text => lift (extractJson text)
  | _ =>
      bindH (console_errorH (js "Error extracting JSON:") TypeError)
        (fun _ => retH JNull)
  end.

(** [JSON.stringify(v)] as the runtime does it. *)
Definition JSON_stringify (rt : runtime) (v : value) : H jsstring :=
  fun w =>
    match rt_stringify rt v with
    | Some s => (Done s, w)
    | None => (Raised RangeError, w)
    end.

Record response : Type := Response { res_status : nat; res_body : value }.

(** [res.status(status).json(v)]: the value is serialized, which can
    raise, and sent. *)
Definition res_json (rt : runtime) (status : nat) (v : value) : H response :=
  bindH (JSON_stringify rt v) (fun _ => retH (Response status v)).

(** Lines 57-74: the text the POST handler takes from [req.body], or
    [None] where line 73 answers.  Line 70 serializes the body. *)
Definition input_text (rt : runtime) (req_body : jsvalue)
  : H (option value) :=
  match req_body with
  | Some (JStr s) => retH (Some (JStr s))
  | Some b =>
      if truthy rt (Some b) && truthy rt (text_of b) then retH (text_of b)
      else if truthy rt (Some b) && is_typeof_object b then
        match first_value b with
        | Some (JStr firstProp) => retH (Some (JStr firstProp))
        | _ =>
            bindH (JSON_stringify rt b) (fun serialized =>
            retH (Some (JStr serialized)))
        end
      else retH None
  | None => retH None
  end.

(** The answers with a fixed body, a flat object of short strings, are
    sent as they are. *)
Definition not_found : response :=
  Response 404
    (JObj [(js "status", JStr (js "error"));
           (js "error", JStr (js "No valid JSON found in the input text"))]).


(** [app.post("/extract", ...)], lines 53-99.  [req_body] ranges over
    every value; behind the body parsers of lines 11-12 it is a string
    or the empty object. *)
Definition post_extract (rt : runtime) (req_body : jsvalue) : H response :=
  try_catchH
    (bindH (input_text rt req_body) (fun negotiated =>
       match negotiated with
       | None =>
           retH (Response 400
                   (JObj [(js "error", JStr (js "No valid input provided"))]))
       | Some inputText =>
           if negb (truthy rt (Some inputText)) then
             retH (Response 400
                     (JObj [(js "error", JStr (js "No input text provided"))]))
           else
             bindH (call_extractJson inputText) (fun extractedJson =>
               if truthy rt (Some extractedJson)
               then res_json rt 200 extractedJson
               else retH not_found)
       end))
    (fun error =>
       bindH (console_errorH (js "Server error:") error) (fun _ =>
         retH (Response 500
                 (JObj [(js "status", JStr (js "error"));
                        (js "error", JStr (js "Internal server error"));
                        (js "message", JStr (error_message rt error))])))).


(** Every line is one the extractor writes. *)
Definition labelled (out : server_console) : Prop :=
  Forall (fun le => fst le = js "Error extracting JSON:") out.

(** [c] does not occur in [s]. *)
Definition lacks (c : codeunit) (s : jsstring) : bool :=
  forallb (fun x => negb (N.eqb x c)) s.

(** A runtime for the examples: it serializes every value. *)
Definition example_runtime : runtime :=
  Runtime (fun l => negb (jsstring_eqb l (js "0")))
    (fun _ => js "error") (fun v => Some (compact v)).

(** The string [see {"a":1}]. *)
Definition text_member : jsstring := js "see {" ++ quoted "a" ++ js ":1}".

(** [Here: ```json\n{"a":"```"}\n``` and ```more```]: the body holds a
    fence inside a string, and fences follow the block. *)
Definition text_fences_around : jsstring :=
  js "Here: " ++ fence ++ js "json" ++ [LF]
    ++ (lbrace :: (quoted "a" ++ js ":" ++ [dquote] ++ fence ++ [dquote])
          ++ [rbrace])
    ++ [LF] ++ fence ++ js " and " ++ fence ++ js "more" ++ fence.

(** The object [{"a":"```"}]. *)
Definition object_fence_string : value := JObj [(js "a", JStr fence)].

(** * Properties *)

Unset Implicit Arguments.

(** ** The matcher *)

Section MatcherFacts.
Import RegExp.

Lemma any_true c : any c = true.
Proof. unfold any. destruct (is_space c); reflexivity. Qed.

Lemma m_lit l s cap k :
  m (lit l) s cap k =
  if is_prefix l s then k (skipn (length l) s) cap else None.
Proof.
  revert s. induction l as [|a l IH]; intros s; simpl.
  - reflexivity.
  - destruct s as [|x s]; [reflexivity|].
    rewrite N.eqb_sym. destruct (N.eqb a x); simpl; [apply IH | reflexivity].
Qed.

(** A greedy star whose continuation cannot start on a character of the
    class stops where the class stops. *)
Lemma star_greedy_skip p k s :
  (forall c s', p c = true -> k (c :: s') = None) ->
  star_greedy p k s = k (dropwhile p s).
Proof.
  intros Hk. induction s as [|c s IH]; simpl; [reflexivity|].
  destruct (p c) eqn:Hp; [|reflexivity].
  rewrite IH. destruct (k (dropwhile p s)) eqn:E; [reflexivity|].
  apply Hk, Hp.
Qed.

(** The greedy [[\s\S]*] before a closing brace stops at the last one. *)
Lemma star_greedy_last (g : jsstring -> state) s :
  star_greedy any
    (fun s' => match s' with
               | x :: s'' => if N.eqb x rbrace then Some (g s'') else None
               | [] => None
               end) s =
  match last_index_of rbrace s with
  | Some j => Some (g (skipn (S j) s))
  | None => None
  end.
Proof.
  induction s as [|x s IH]; [reflexivity|].
  simpl star_greedy. rewrite any_true, IH. simpl last_index_of.
  destruct (last_index_of rbrace s); [reflexivity|].
  destruct (N.eqb x rbrace); reflexivity.
Qed.

Lemma last_index_of_lt c s j : last_index_of c s = Some j -> j < length s.
Proof.
  revert j. induction s as [|x s IH]; intros j; simpl; [discriminate|].
  destruct (last_index_of c s) as [j'|].
  - intros [= <-]. specialize (IH j' eq_refl). lia.
  - destruct (N.eqb x c); [intros [= <-]; lia | discriminate].
Qed.

Lemma index_of_lt c s i : index_of c s = Some i -> i < length s.
Proof.
  revert i. induction s as [|x s IH]; intros i; simpl; [discriminate|].
  destruct (N.eqb x c); [intros [= <-]; lia|].
  destruct (index_of c s) as [i'|]; [|discriminate].
  intros [= <-]. specialize (IH i' eq_refl). lia.
Qed.

(** One attempt of the fallback pattern. *)
Lemma match_at_fallback x r :
  match_at fallbackRegex (x :: r) =
  if N.eqb x lbrace then
    match last_index_of rbrace r with
    | Some j =>
        Some (MatchArray (firstn (S (S j)) (x :: r))
                (Some (firstn (S (S j)) (x :: r))))
    | None => None
    end
  else None.
Proof.
  unfold match_at, fallbackRegex. cbn [m].
  destruct (N.eqb x lbrace); [|reflexivity].
  rewrite (star_greedy_last
             (fun s'' => (Some (firstn (length (x :: r) - length s'') (x :: r)), s''))).
  destruct (last_index_of rbrace r) as [j|] eqn:E; [|reflexivity].
  apply last_index_of_lt in E.
  rewrite length_skipn.
  replace (length (x :: r) - (length r - S j)) with (S (S j))
    by (cbn [length]; lia).
  reflexivity.
Qed.

Lemma match_at_fallback_nil : match_at fallbackRegex [] = None.
Proof. reflexivity. Qed.

Lemma exec_fallback_no_rbrace s :
  last_index_of rbrace s = None -> exec fallbackRegex s = None.
Proof.
  induction s as [|x s IH]; intros H; [reflexivity|].
  simpl in H. destruct (last_index_of rbrace s) eqn:E; [discriminate|].
  cbn [exec]. rewrite match_at_fallback, E.
  destruct (N.eqb x lbrace); apply IH; reflexivity.
Qed.

(** The fallback pattern finds the span of the specification. *)
Lemma exec_fallback text :
  exec fallbackRegex text =
  option_map (fun g => MatchArray g (Some g)) (first_to_last_brace text).
Proof.
  unfold first_to_last_brace, substring.
  induction text as [|x r IH]; [reflexivity|].
  cbn [exec]. rewrite match_at_fallback. cbn [index_of last_index_of].
  destruct (N.eqb x lbrace) eqn:Hx.
  - destruct (last_index_of rbrace r) as [j|] eqn:E.
    + reflexivity.
    + rewrite exec_fallback_no_rbrace by assumption.
      destruct (N.eqb x rbrace); reflexivity.
  - rewrite IH.
    destruct (index_of lbrace r) as [i|]; [|reflexivity]. cbn [option_map].
    destruct (last_index_of rbrace r) as [j|].
    + change (S i <? S j) with (i <? j). destruct (i <? j); reflexivity.
    + destruct (N.eqb x rbrace); reflexivity.
Qed.

End MatcherFacts.

Section FencedFacts.
Import RegExp.

Lemma is_space_not c x : is_space c = true -> is_space x = false -> N.eqb c x = false.
Proof.
  intros Hc Hx. destruct (N.eqb_spec c x) as [->|]; [congruence | reflexivity].
Qed.

Lemma dropwhile_app p ws x rest :
  forallb p ws = true -> p x = false ->
  dropwhile p (ws ++ x :: rest) = x :: rest.
Proof.
  intros Hws Hx. induction ws as [|c ws IH]; simpl.
  - rewrite Hx. reflexivity.
  - simpl in Hws. apply andb_true_iff in Hws as [Hc Hws].
    rewrite Hc. apply IH, Hws.
Qed.

Lemma star_lazy_eq p k s :
  star_lazy p k s =
  match k s with
  | Some r => Some r
  | None =>
      match s with
      | c :: s' => if p c then star_lazy p k s' else None
      | [] => None
      end
  end.
Proof. destruct s; reflexivity. Qed.

(** The lazy [[\s\S]*?] stops at the first place where the rest of the
    pattern matches. *)
Lemma star_lazy_first k mid rest res :
  k rest = Some res ->
  (forall a x b, mid = a ++ x :: b -> k (x :: b ++ rest) = None) ->
  star_lazy any k (mid ++ rest) = Some res.
Proof.
  intros Hk. induction mid as [|x mid IH]; intros Hno.
  - simpl. rewrite star_lazy_eq, Hk. reflexivity.
  - rewrite star_lazy_eq. cbn [app].
    rewrite (Hno [] x mid eq_refl), any_true.
    apply IH. intros a y b ->. apply (Hno (x :: a) y b). reflexivity.
Qed.

(** What follows the group: optional whitespace and the closing fence. *)
Lemma after_group s cap :
  m (Cat (Star is_space) (lit fence)) s cap accept =
  if closes_block s
  then Some (cap, skipn 3 (dropwhile is_space s))
  else None.
Proof.
  cbn [m]. rewrite star_greedy_skip.
  - rewrite m_lit. reflexivity.
  - intros c s' Hc. rewrite m_lit. cbn [fence is_prefix].
    rewrite N.eqb_sym, (is_space_not c backtick Hc eq_refl). reflexivity.
Qed.

Lemma firstn_consumed (a b : jsstring) :
  firstn (length (a ++ b) - length b) (a ++ b) = a.
Proof.
  rewrite length_app, Nat.add_sub. rewrite firstn_app, Nat.sub_diag.
  rewrite firstn_all. simpl. apply app_nil_r.
Qed.

(** The group and the closing fence, at the opening brace. *)
Lemma m_body mid tail cap :
  closes_block tail = true ->
  (forall a b, mid = a ++ rbrace :: b ->
               closes_block (b ++ rbrace :: tail) = false) ->
  m (Cat body_re close_re) (lbrace :: mid ++ rbrace :: tail) cap accept
  = Some (Some (lbrace :: mid ++ [rbrace]),
          skipn 3 (dropwhile is_space tail)).
Proof.
  intros Htail Hmid. unfold body_re.
  remember close_re as close eqn:Hclose. cbn [m].
  rewrite N.eqb_refl.
  apply star_lazy_first.
  - rewrite N.eqb_refl, Hclose. unfold close_re.
    rewrite after_group, Htail.
    change (lbrace :: mid ++ rbrace :: tail)
      with ((lbrace :: mid) ++ rbrace :: tail).
    replace ((lbrace :: mid) ++ rbrace :: tail)
      with ((lbrace :: mid ++ [rbrace]) ++ tail)
      by (simpl; rewrite <- app_assoc; reflexivity).
    rewrite firstn_consumed. reflexivity.
  - intros a x b ->.
    destruct (N.eqb_spec x rbrace) as [->|]; [|reflexivity].
    rewrite Hclose. unfold close_re. rewrite after_group.
    rewrite (Hmid a b eq_refl). reflexivity.
Qed.

Lemma m_body_miss c s cap :
  N.eqb c lbrace = false ->
  m (Cat body_re close_re) (c :: s) cap accept = None.
Proof. intros H. unfold body_re. cbn [m]. rewrite H. reflexivity. Qed.

(** One attempt of the fenced pattern at an opening fence whose block
    holds a brace-delimited body. *)
Lemma m_fenced tag ws mid tail :
  tag = [] \/ tag = js "json" ->
  forallb is_space ws = true ->
  closes_block tail = true ->
  (forall a b, mid = a ++ rbrace :: b ->
               closes_block (b ++ rbrace :: tail) = false) ->
  m jsonRegex (fence ++ tag ++ ws ++ lbrace :: mid ++ rbrace :: tail)
    None accept
  = Some (Some (lbrace :: mid ++ [rbrace]),
          skipn 3 (dropwhile is_space tail)).
Proof.
  intros Htag Hws Htail Hmid.
  change jsonRegex with
    (Cat (lit fence)
       (Cat (Opt (lit (js "json")))
          (Cat (Star is_space) (Cat body_re close_re)))).
  remember (Cat body_re close_re) as bc eqn:Hbc.
  cbn [m]. rewrite m_lit.
  change (is_prefix fence (fence ++ ?x)) with true. cbv iota.
  change (skipn (length fence) (fence ++ ?x)) with x.
  assert (Hstar : forall cap,
             star_greedy is_space (fun s' => m bc s' cap accept)
               (ws ++ lbrace :: mid ++ rbrace :: tail)
             = Some (Some (lbrace :: mid ++ [rbrace]),
                     skipn 3 (dropwhile is_space tail))).
  { intros cap. rewrite star_greedy_skip.
    - rewrite dropwhile_app by (assumption || reflexivity).
      rewrite Hbc. apply m_body; assumption.
    - intros c s' Hc. rewrite Hbc. apply m_body_miss.
      apply is_space_not; [assumption | reflexivity]. }
  rewrite m_lit.
  destruct Htag as [-> | ->].
  - cbn [app].
    assert (Hj : is_prefix (js "json")
                   (ws ++ lbrace :: mid ++ rbrace :: tail) = false).
    { destruct ws as [|c ws']; [reflexivity|].
      simpl in Hws. apply andb_true_iff in Hws as [Hc _].
      change (is_prefix (js "json") ((c :: ws') ++ ?x))
        with (N.eqb 106%N c && is_prefix (js "son") (ws' ++ x)).
      rewrite N.eqb_sym, (is_space_not c 106%N Hc eq_refl). reflexivity. }
    rewrite Hj. apply Hstar.
  - change (is_prefix (js "json") (js "json" ++ ?x)) with true. cbv iota.
    change (skipn (length (js "json")) (js "json" ++ ?x)) with x.
    rewrite Hstar. reflexivity.
Qed.

Lemma match_at_fenced tag ws mid tail :
  tag = [] \/ tag = js "json" ->
  forallb is_space ws = true ->
  closes_block tail = true ->
  (forall a b, mid = a ++ rbrace :: b ->
               closes_block (b ++ rbrace :: tail) = false) ->
  exists whole,
    match_at jsonRegex
      (fence ++ tag ++ ws ++ lbrace :: mid ++ rbrace :: tail)
    = Some (MatchArray whole (Some (lbrace :: mid ++ [rbrace]))).
Proof.
  intros Htag Hws Htail Hmid. unfold match_at.
  rewrite m_fenced by assumption. eexists. reflexivity.
Qed.

(** No attempt succeeds where no fence starts. *)
Lemma match_at_no_fence s :
  is_prefix fence s = false -> match_at jsonRegex s = None.
Proof.
  intros H. unfold match_at, jsonRegex. cbn [m]. rewrite m_lit, H.
  reflexivity.
Qed.

End FencedFacts.

(** ** JSON: parsing a serialization *)

Module JSONFacts.
Import JSON.

Ltac Zify.zify_post_hook ::= Z.to_euclidean_division_equations.

Lemma hex_value_digit n : (n < 16)%N -> hex_value (hex_digit n) = Some n.
Proof.
  intros H. unfold hex_value, hex_digit.
  destruct (N.ltb_spec n 10).
  - replace (N.leb 48 (48 + n) && N.leb (48 + n) 57) with true.
    + f_equal. lia.
    + symmetry. apply andb_true_iff. split; apply N.leb_le; lia.
  - replace (N.leb 48 (87 + n) && N.leb (87 + n) 57) with false.
    + replace (N.leb 97 (87 + n) && N.leb (87 + n) 102) with true.
      * f_equal. lia.
      * symmetry. apply andb_true_iff. split; apply N.leb_le; lia.
    + symmetry. apply andb_false_iff. right. apply N.leb_gt. lia.
Qed.

Lemma hex4_escape c rest :
  (c < 65536)%N ->
  exists h1 h2 h3 h4,
    unicode_escape c ++ rest = backslash :: 117%N :: h1 :: h2 :: h3 :: h4 :: rest
    /\ hex4 h1 h2 h3 h4 = Some c.
Proof.
  intros H. unfold unicode_escape. do 4 eexists. split; [reflexivity|].
  unfold hex4. rewrite !hex_value_digit by lia. f_equal. lia.
Qed.

Lemma lex_string_plain c r :
  (32 <= c)%N -> c <> dquote -> c <> backslash ->
  lex_string (c :: r) = cons_to c (lex_string r).
Proof.
  intros H32 Hq Hb. cbn [lex_string].
  apply N.eqb_neq in Hq, Hb. rewrite Hq, Hb.
  destruct (N.ltb_spec c 32); [lia | reflexivity].
Qed.

Lemma lex_string_unicode c r :
  (c < 65536)%N ->
  lex_string (unicode_escape c ++ r) = cons_to c (lex_string r).
Proof.
  intros H. destruct (hex4_escape c r H) as (h1 & h2 & h3 & h4 & -> & Hh).
  cbn [lex_string].
  change (N.eqb backslash dquote) with false.
  change (N.eqb backslash backslash) with true.
  change (N.eqb 117 117) with true. cbv iota.
  rewrite Hh. reflexivity.
Qed.

Lemma surrogate_bounds c :
  is_high_surrogate c = true \/ is_low_surrogate c = true ->
  (55296 <= c < 57344)%N.
Proof.
  unfold is_high_surrogate, is_low_surrogate.
  intros [H|H]; apply andb_true_iff in H as [H1 H2];
    apply N.leb_le in H1, H2; lia.
Qed.

Lemma lex_string_unit c r :
  lex_string (quote_unit c ++ r) = cons_to c (lex_string r).
Proof.
  unfold quote_unit.
  destruct (N.eqb_spec c 8) as [->|]; [reflexivity|].
  destruct (N.eqb_spec c TAB) as [->|]; [reflexivity|].
  destruct (N.eqb_spec c LF) as [->|]; [reflexivity|].
  destruct (N.eqb_spec c 12) as [->|]; [reflexivity|].
  destruct (N.eqb_spec c CR) as [->|]; [reflexivity|].
  destruct (N.eqb_spec c dquote) as [->|]; [reflexivity|].
  destruct (N.eqb_spec c backslash) as [->|]; [reflexivity|].
  destruct (N.ltb_spec c 32).
  - apply lex_string_unicode. lia.
  - apply lex_string_plain; assumption.
Qed.

Lemma lex_string_quote_units_len n :
  forall s rest, length s <= n ->
    lex_string (quote_units s ++ dquote :: rest) = Some (s, rest).
Proof.
  induction n as [|n IH]; intros s rest Hlen.
  - destruct s; [reflexivity | simpl in Hlen; lia].
  - destruct s as [|c r]; [reflexivity|].
    cbn [quote_units].
    destruct (is_high_surrogate c) eqn:Hh.
    + pose proof (surrogate_bounds c (or_introl Hh)) as Hc.
      destruct r as [|d r'].
      * rewrite lex_string_unicode by lia. reflexivity.
      * destruct (is_low_surrogate d) eqn:Hl.
        -- pose proof (surrogate_bounds d (or_intror Hl)) as Hd.
           cbn [app].
           rewrite !lex_string_plain
             by (unfold dquote, backslash; lia).
           rewrite IH by (cbn [length] in *; lia). reflexivity.
        -- rewrite <- app_assoc, lex_string_unicode by lia.
           rewrite IH by (cbn [length] in *; lia). reflexivity.
    + destruct (is_low_surrogate c) eqn:Hl.
      * pose proof (surrogate_bounds c (or_intror Hl)) as Hc.
        rewrite <- app_assoc, lex_string_unicode by lia.
        rewrite IH by (cbn [length] in *; lia). reflexivity.
      * rewrite <- app_assoc, lex_string_unit.
        rewrite IH by (cbn [length] in *; lia). reflexivity.
Qed.

(** A quoted string is read back. *)
Lemma lex_string_quote s rest :
  lex_string (quote_units s ++ dquote :: rest) = Some (s, rest).
Proof. apply lex_string_quote_units_len with (n := length s). lia. Qed.


(** *** Numeric literals *)

Lemma number_stop_inv c :
  number_stop c = true ->
  is_digit c = false /\ N.eqb c dot = false /\ N.eqb c 101 = false
  /\ N.eqb c 69 = false /\ N.eqb c plus = false /\ N.eqb c minus = false.
Proof.
  unfold number_stop. intros H. apply negb_true_iff in H.
  repeat (apply orb_false_iff in H as [H ?]). auto 10.
Qed.

Lemma span_digits_consumed s :
  forall ds r, span_digits s = (ds, r) -> s = ds ++ r.
Proof.
  induction s as [|a s IH]; intros ds r; simpl.
  - intros [= <- <-]. reflexivity.
  - destruct (is_digit a).
    + destruct (span_digits s) as [ds' r'].
      intros [= <- <-]. simpl. f_equal. apply IH. reflexivity.
    + intros [= <- <-]. reflexivity.
Qed.

Lemma span_digits_app c x s :
  number_stop c = true ->
  forall ds r, span_digits s = (ds, r) ->
               span_digits (s ++ c :: x) = (ds, r ++ c :: x).
Proof.
  intros Hc. destruct (number_stop_inv c Hc) as (Hd & _).
  induction s as [|a s IH]; intros ds r; simpl.
  - intros [= <- <-]. rewrite Hd. reflexivity.
  - destruct (is_digit a).
    + destruct (span_digits s) as [ds' r'].
      intros [= <- <-]. rewrite (IH ds' r' eq_refl). reflexivity.
    + intros [= <- <-]. reflexivity.
Qed.

Lemma lex_int_consumed s i r : lex_int s = Some (i, r) -> s = i ++ r.
Proof.
  destruct s as [|a s]; simpl; [discriminate|].
  destruct (N.eqb a zero).
  - intros [= <- <-]. reflexivity.
  - destruct (is_digit a); [|discriminate].
    destruct (span_digits s) as [ds r'] eqn:E.
    intros [= <- <-]. simpl. f_equal. apply (span_digits_consumed _ _ _ E).
Qed.

Lemma lex_int_app c x s i r :
  number_stop c = true ->
  lex_int s = Some (i, r) -> lex_int (s ++ c :: x) = Some (i, r ++ c :: x).
Proof.
  intros Hc. destruct s as [|a s]; simpl; [discriminate|].
  destruct (N.eqb a zero).
  - intros [= <- <-]. reflexivity.
  - destruct (is_digit a); [|discriminate].
    destruct (span_digits s) as [ds r'] eqn:E.
    intros [= <- <-]. rewrite (span_digits_app c x s Hc _ _ E). reflexivity.
Qed.

Lemma lex_frac_consumed s f r : lex_frac s = (f, r) -> s = f ++ r.
Proof.
  destruct s as [|a [|d s]]; simpl; try (intros [= <- <-]; reflexivity).
  destruct (N.eqb a dot && is_digit d).
  - destruct (span_digits s) as [ds r'] eqn:E.
    intros [= <- <-]. simpl. do 2 f_equal. apply (span_digits_consumed _ _ _ E).
  - intros [= <- <-]. reflexivity.
Qed.

Lemma lex_frac_app c x s f r :
  number_stop c = true ->
  lex_frac s = (f, r) -> lex_frac (s ++ c :: x) = (f, r ++ c :: x).
Proof.
  intros Hc. destruct (number_stop_inv c Hc) as (Hd & Hdot & _).
  destruct s as [|a [|d s]]; simpl.
  - intros [= <- <-]. destruct x; [reflexivity|].
    rewrite Hdot. reflexivity.
  - intros [= <- <-]. rewrite Hd, andb_false_r. reflexivity.
  - destruct (N.eqb a dot && is_digit d).
    + destruct (span_digits s) as [ds r'] eqn:E.
      intros [= <- <-]. rewrite (span_digits_app c x s Hc _ _ E). reflexivity.
    + intros [= <- <-]. reflexivity.
Qed.

Lemma lex_exp_consumed s e r : lex_exp s = (e, r) -> s = e ++ r.
Proof.
  destruct s as [|a [|d s]]; simpl; try (intros [= <- <-]; reflexivity).
  destruct (N.eqb a 101 || N.eqb a 69); [|intros [= <- <-]; reflexivity].
  destruct (is_digit d).
  - destruct (span_digits s) as [ds r'] eqn:E.
    intros [= <- <-]. simpl. do 2 f_equal. apply (span_digits_consumed _ _ _ E).
  - destruct (N.eqb d plus || N.eqb d minus);
      [|intros [= <- <-]; reflexivity].
    destruct s as [|d' s]; [intros [= <- <-]; reflexivity|].
    destruct (is_digit d'); [|intros [= <- <-]; reflexivity].
    destruct (span_digits s) as [ds r'] eqn:E.
    intros [= <- <-]. simpl. do 3 f_equal. apply (span_digits_consumed _ _ _ E).
Qed.

Lemma lex_exp_app c x s e r :
  number_stop c = true ->
  lex_exp s = (e, r) -> lex_exp (s ++ c :: x) = (e, r ++ c :: x).
Proof.
  intros Hc.
  destruct (number_stop_inv c Hc) as (Hd & _ & He & HE & Hp & Hm).
  destruct s as [|a [|d s]]; simpl.
  - intros [= <- <-]. destruct x; [reflexivity|].
    rewrite He, HE. reflexivity.
  - intros [= <- <-]. rewrite Hd, Hp, Hm.
    destruct (N.eqb a 101 || N.eqb a 69); reflexivity.
  - destruct (N.eqb a 101 || N.eqb a 69); [|intros [= <- <-]; reflexivity].
    destruct (is_digit d).
    + destruct (span_digits s) as [ds r'] eqn:E.
      intros [= <- <-]. rewrite (span_digits_app c x s Hc _ _ E). reflexivity.
    + destruct (N.eqb d plus || N.eqb d minus);
        [|intros [= <- <-]; reflexivity].
      destruct s as [|d' s]; simpl.
      * intros [= <- <-]. rewrite Hd. reflexivity.
      * destruct (is_digit d'); [|intros [= <- <-]; reflexivity].
        destruct (span_digits s) as [ds r'] eqn:E.
        intros [= <- <-]. rewrite (span_digits_app c x s Hc _ _ E). reflexivity.
Qed.

Lemma lex_unsigned_consumed s l r :
  lex_unsigned s = Some (l, r) -> s = l ++ r.
Proof.
  unfold lex_unsigned.
  destruct (lex_int s) as [[i r1]|] eqn:Ei; [|discriminate].
  destruct (lex_frac r1) as [f r2] eqn:Ef.
  destruct (lex_exp r2) as [e r3] eqn:Ee.
  intros [= <- <-].
  apply lex_int_consumed in Ei. apply lex_frac_consumed in Ef.
  apply lex_exp_consumed in Ee. subst. rewrite <- !app_assoc. reflexivity.
Qed.

Lemma lex_unsigned_app c x s l r :
  number_stop c = true ->
  lex_unsigned s = Some (l, r) ->
  lex_unsigned (s ++ c :: x) = Some (l, r ++ c :: x).
Proof.
  intros Hc. unfold lex_unsigned.
  destruct (lex_int s) as [[i r1]|] eqn:Ei; [|discriminate].
  destruct (lex_frac r1) as [f r2] eqn:Ef.
  destruct (lex_exp r2) as [e r3] eqn:Ee.
  intros [= <- <-].
  rewrite (lex_int_app c x s _ _ Hc Ei), (lex_frac_app c x r1 _ _ Hc Ef),
    (lex_exp_app c x r2 _ _ Hc Ee). reflexivity.
Qed.

Lemma lex_number_consumed s l r :
  lex_number s = Some (l, r) -> s = l ++ r.
Proof.
  destruct s as [|a s]; [discriminate|]. cbn [lex_number].
  destruct (N.eqb a minus).
  - destruct (lex_unsigned s) as [[l' r']|] eqn:E; [|discriminate].
    intros [= <- <-]. simpl. f_equal. apply (lex_unsigned_consumed _ _ _ E).
  - apply lex_unsigned_consumed.
Qed.

Lemma lex_number_app c x s l r :
  number_stop c = true ->
  lex_number s = Some (l, r) ->
  lex_number (s ++ c :: x) = Some (l, r ++ c :: x).
Proof.
  intros Hc. destruct s as [|a s]; [discriminate|].
  cbn [lex_number app]. destruct (N.eqb a minus).
  - destruct (lex_unsigned s) as [[l' r']|] eqn:E; [|discriminate].
    intros [= <- <-]. rewrite (lex_unsigned_app c x s _ _ Hc E). reflexivity.
  - apply (lex_unsigned_app c x (a :: s) _ _ Hc).
Qed.

(** A numeric literal is read back before a delimiter. *)
Lemma lex_number_literal l rest :
  is_number l = true -> delimited rest = true ->
  lex_number (l ++ rest) = Some (l, rest).
Proof.
  unfold is_number. intros Hl Hrest.
  destruct (lex_number l) as [[l' [|]]|] eqn:E; try discriminate.
  pose proof (lex_number_consumed _ _ _ E) as Hc. rewrite app_nil_r in Hc.
  subst l'. destruct rest as [|c x].
  - rewrite app_nil_r. exact E.
  - apply (lex_number_app c x l _ _ Hrest E).
Qed.


(** *** Values *)

Lemma compact_arr vs :
  compact (JArr vs) = lbracket :: compact_elements vs ++ [rbracket].
Proof. reflexivity. Qed.

Lemma compact_obj ms :
  compact (JObj ms) = lbrace :: compact_members ms ++ [rbrace].
Proof. reflexivity. Qed.

Lemma skip_ws_head c x : is_ws c = false -> skip_ws (c :: x) = c :: x.
Proof. intros H. unfold skip_ws. simpl. rewrite H. reflexivity. Qed.

Lemma number_head l :
  is_number l = true ->
  exists c t, l = c :: t /\ (c = minus \/ is_digit c = true).
Proof.
  unfold is_number. destruct l as [|a s]; [discriminate|].
  intros H. exists a, s. split; [reflexivity|].
  cbn [lex_number] in H. destruct (N.eqb_spec a minus); [left; assumption|].
  right. unfold lex_unsigned, lex_int in H.
  destruct (N.eqb_spec a zero) as [->|]; [reflexivity|].
  destruct (is_digit a); [reflexivity | discriminate].
Qed.

Lemma digit_bounds c : is_digit c = true -> (48 <= c <= 57)%N.
Proof.
  unfold is_digit. intros H. apply andb_true_iff in H as [H1 H2].
  apply N.leb_le in H1, H2. lia.
Qed.

Lemma digit_head c : c = minus \/ is_digit c = true -> value_head c.
Proof.
  intros [->|H]; [split; reflexivity|].
  apply digit_bounds in H. unfold value_head, is_ws.
  unfold TAB, LF, CR, SP, rbracket.
  split; repeat (apply orb_false_iff; split); apply N.eqb_neq; lia.
Qed.

Lemma compact_head v :
  valid v = true -> exists c t, compact v = c :: t /\ value_head c.
Proof.
  destruct v as [|[|]|l|s|vs|ms]; intros Hv;
    try (do 2 eexists; split; [reflexivity | split; reflexivity]).
  simpl in Hv. destruct (number_head l Hv) as (c & t & -> & Hc).
  exists c, t. split; [reflexivity | apply digit_head, Hc].
Qed.

Lemma parse_value_number fuel l rest :
  is_number l = true -> delimited rest = true ->
  parse_value (S fuel) (l ++ rest) = Ok (JNum l) rest.
Proof.
  intros Hl Hrest. pose proof (lex_number_literal l rest Hl Hrest) as Hlex.
  destruct (number_head l Hl) as (c & t & -> & Hc).
  destruct (digit_head c Hc) as [Hws _].
  cbn [parse_value app] in *. rewrite (skip_ws_head _ _ Hws).
  assert (Hne : forall k, (k = lbrace \/ k = lbracket \/ k = dquote
                           \/ k = 116 \/ k = 102 \/ k = 110)%N ->
                          N.eqb c k = false).
  { intros k Hk. apply N.eqb_neq. destruct Hc as [->|Hd].
    - unfold minus, lbrace, lbracket, dquote in *. lia.
    - apply digit_bounds in Hd.
      unfold lbrace, lbracket, dquote in *. lia. }
  rewrite !Hne by tauto.
  unfold lex_literal. cbn [is_prefix js map list_ascii_of_string].
  change (N_of_ascii "t") with 116%N. change (N_of_ascii "f") with 102%N.
  change (N_of_ascii "n") with 110%N.
  rewrite !(N.eqb_sym _ c), !Hne by tauto. cbn [andb].
  rewrite Hlex. reflexivity.
Qed.


Lemma parse_value_lbracket f r :
  parse_value (S f) (lbracket :: r) =
  match skip_ws r with
  | [] => Bad
  | c :: r' =>
      if N.eqb c rbracket then Ok (JArr []) r'
      else bind (parse_elements f r) (fun vs rest => Ok (JArr vs) rest)
  end.
Proof. reflexivity. Qed.

Lemma parse_value_lbrace f r :
  parse_value (S f) (lbrace :: r) =
  match skip_ws r with
  | [] => Bad
  | c :: r' =>
      if N.eqb c rbrace then Ok (JObj []) r'
      else bind (parse_members f r) (fun ms rest => Ok (JObj ms) rest)
  end.
Proof. reflexivity. Qed.

Lemma parse_value_dquote f r :
  parse_value (S f) (dquote :: r) =
  match lex_string r with
  | Some (str, rest) => Ok (JStr str) rest
  | None => Bad
  end.
Proof. reflexivity. Qed.

Lemma parse_elements_eq f s :
  parse_elements (S f) s =
  bind (parse_value f s) (fun v rest =>
    match skip_ws rest with
    | [] => Bad
    | c :: r =>
        if N.eqb c comma then
          bind (parse_elements f r) (fun vs rest' => Ok (v :: vs) rest')
        else if N.eqb c rbracket then Ok [v] r
        else Bad
    end).
Proof. reflexivity. Qed.

Lemma parse_members_dquote f r :
  parse_members (S f) (dquote :: r) =
  match lex_string r with
  | None => Bad
  | Some (key, r1) =>
      match skip_ws r1 with
      | [] => Bad
      | c :: r2 =>
          if N.eqb c colon then
            bind (parse_value f r2) (fun v rest =>
              match skip_ws rest with
              | [] => Bad
              | c' :: r3 =>
                  if N.eqb c' comma then
                    bind (parse_members f r3)
                      (fun ms rest' => Ok ((key, v) :: ms) rest')
                  else if N.eqb c' rbrace then Ok [(key, v)] r3
                  else Bad
              end)
          else Bad
      end
  end.
Proof. reflexivity. Qed.

Lemma compact_elements_cons x y l :
  compact_elements (x :: y :: l) =
  compact x ++ comma :: compact_elements (y :: l).
Proof. reflexivity. Qed.

Lemma compact_members_one k x rest :
  compact_members [(k, x)] ++ rest =
  dquote :: quote_units k ++ dquote :: colon :: compact x ++ rest.
Proof.
  cbn [compact_members]. unfold quote. cbn [app].
  rewrite <- !app_assoc. reflexivity.
Qed.

Lemma compact_members_cons k x kv l rest :
  compact_members ((k, x) :: kv :: l) ++ rest =
  dquote :: quote_units k ++ dquote :: colon :: compact x
    ++ comma :: compact_members (kv :: l) ++ rest.
Proof.
  change (compact_members ((k, x) :: kv :: l))
    with (quote k ++ colon :: compact x
            ++ comma :: compact_members (kv :: l)).
  unfold quote. cbn [app]. rewrite <- !app_assoc. cbn [app].
  rewrite <- !app_assoc. reflexivity.
Qed.

Ltac lengths :=
  repeat (rewrite length_app in * || cbn [length] in *); lia.

Lemma parse_compact_elements vs :
  Forall reads_back vs -> forallb valid vs = true -> vs <> [] ->
  forall fuel rest,
    2 * length (compact_elements vs ++ rbracket :: rest) + 1 < fuel ->
    parse_elements fuel (compact_elements vs ++ rbracket :: rest)
    = Ok vs rest.
Proof.
  induction vs as [|x l IH]; [congruence|].
  intros HP Hv _ fuel rest Hfuel.
  inversion HP as [|? ? Hx Hl]; subst.
  cbn [forallb] in Hv. apply andb_true_iff in Hv as [Hvx Hvl].
  destruct fuel as [|f]; [lia|]. rewrite parse_elements_eq.
  destruct l as [|y l'].
  - cbn [compact_elements] in *.
    rewrite (Hx Hvx f (rbracket :: rest) eq_refl) by lia.
    reflexivity.
  - rewrite compact_elements_cons in *.
    rewrite <- app_assoc in *. cbn [app] in *.
    rewrite (Hx Hvx f
               (comma :: compact_elements (y :: l') ++ rbracket :: rest)
               eq_refl) by lia.
    cbn [bind]. rewrite skip_ws_head by reflexivity.
    change (N.eqb comma comma) with true. cbv iota.
    rewrite IH; [reflexivity | assumption | assumption | discriminate |].
    lengths.
Qed.


Lemma parse_compact_members ms :
  Forall (fun kv => reads_back (snd kv)) ms ->
  forallb (fun kv => valid (snd kv)) ms = true -> ms <> [] ->
  forall fuel rest,
    2 * length (compact_members ms ++ rbrace :: rest) + 1 < fuel ->
    parse_members fuel (compact_members ms ++ rbrace :: rest)
    = Ok ms rest.
Proof.
  induction ms as [|[k x] l IH]; [congruence|].
  intros HP Hv _ fuel rest Hfuel.
  inversion HP as [|? ? Hx Hl]; subst. cbn [snd] in Hx.
  cbn [forallb snd] in Hv. apply andb_true_iff in Hv as [Hvx Hvl].
  destruct fuel as [|f]; [lia|].
  destruct l as [|kv l'].
  - rewrite compact_members_one in *.
    rewrite parse_members_dquote, lex_string_quote.
    rewrite skip_ws_head by reflexivity.
    change (N.eqb colon colon) with true. cbv iota.
    rewrite (Hx Hvx f (rbrace :: rest) eq_refl) by lengths.
    reflexivity.
  - rewrite compact_members_cons in *.
    rewrite parse_members_dquote, lex_string_quote.
    rewrite skip_ws_head by reflexivity.
    change (N.eqb colon colon) with true. cbv iota.
    rewrite (Hx Hvx f
               (comma :: compact_members (kv :: l') ++ rbrace :: rest)
               eq_refl) by lengths.
    cbn [bind]. rewrite skip_ws_head by reflexivity.
    change (N.eqb comma comma) with true. cbv iota.
    rewrite IH; [reflexivity | assumption | assumption | discriminate |].
    lengths.
Qed.

Lemma compact_elements_head x l :
  valid x = true ->
  exists c t, compact_elements (x :: l) = c :: t /\ value_head c.
Proof.
  intros Hx. destruct (compact_head x Hx) as (c & t & E & Hc).
  destruct l as [|y l'].
  - exists c, t. split; assumption.
  - rewrite compact_elements_cons, E. exists c. eexists.
    split; [reflexivity | assumption].
Qed.

(** Every valid value is read back from its serialization. *)
Lemma parse_compact_value v : reads_back v.
Proof.
  induction v as [|b|l|s|vs IH|ms IH] using value_induction;
    intros Hv fuel rest Hrest Hfuel;
    (destruct fuel as [|f]; [lia|]).
  - reflexivity.
  - destruct b; reflexivity.
  - apply parse_value_number; assumption.
  - cbn [compact]. unfold quote. cbn [app]. rewrite <- app_assoc.
    rewrite parse_value_dquote. cbn [app]. rewrite lex_string_quote.
    reflexivity.
  - rewrite compact_arr in *. cbn [app] in *. rewrite <- app_assoc in *.
    cbn [app] in *. rewrite parse_value_lbracket.
    cbn [valid] in Hv. destruct vs as [|x l].
    + reflexivity.
    + cbn [forallb] in Hv. pose proof Hv as Hv'.
      apply andb_true_iff in Hv' as [Hx _].
      destruct (compact_elements_head x l Hx) as (c & t & E & Hws & Hc).
      rewrite E at 1. cbn [app]. rewrite skip_ws_head, Hc by assumption.
      rewrite parse_compact_elements;
        [reflexivity | assumption | assumption | discriminate | lengths].
  - rewrite compact_obj in *. cbn [app] in *. rewrite <- app_assoc in *.
    cbn [app] in *. rewrite parse_value_lbrace.
    cbn [valid] in Hv. destruct ms as [|[k x] l].
    + reflexivity.
    + assert (E : exists t,
                 compact_members ((k, x) :: l) ++ rbrace :: rest
                 = dquote :: t).
      { destruct l.
        - rewrite compact_members_one. eexists. reflexivity.
        - rewrite compact_members_cons. eexists. reflexivity. }
      destruct E as [t E]. rewrite E at 1.
      rewrite skip_ws_head by reflexivity.
      change (N.eqb dquote rbrace) with false. cbv iota.
      rewrite parse_compact_members;
        [reflexivity | assumption | assumption | discriminate | lengths].
Qed.

(** [JSON.parse] reads the compact text of a tree back as the tree. *)
Lemma parse_compact v : valid v = true -> parse (compact v) = inr v.
Proof.
  intros Hv. unfold parse.
  pose proof (parse_compact_value v Hv
                (2 * length (compact v) + 1) [] eq_refl) as H.
  rewrite app_nil_r in H. rewrite H by lia. reflexivity.
Qed.


(** *** The fuel of [JSON.parse] is enough *)

Lemma fine_bind {A B : Type} n (r : result A)
      (f : A -> jsstring -> result B) :
  fine n r ->
  (forall a rest, length rest < n -> fine n (f a rest)) ->
  fine n (bind r f).
Proof. destruct r; cbn [fine bind]; auto. Qed.

Lemma fine_weaken {A : Type} n n' (r : result A) :
  n <= n' -> fine n r -> fine n' r.
Proof. destruct r; cbn [fine]; auto. lia. Qed.

Lemma skip_ws_length s : length (skip_ws s) <= length s.
Proof.
  unfold skip_ws. induction s as [|c s IH]; simpl; [lia|].
  destruct (is_ws c); simpl; lia.
Qed.

Lemma lex_string_length s :
  forall str r, lex_string s = Some (str, r) -> length r < length s.
Proof.
  induction s as [s IH] using (well_founded_induction
                                 (Wf_nat.well_founded_ltof _ (@length _))).
  unfold Wf_nat.ltof in IH. intros str r.
  destruct s as [|c s]; cbn [lex_string]; [discriminate|].
  assert (Hcons : forall x s', length s' < length (c :: s) ->
             cons_to x (lex_string s') = Some (str, r) ->
             length r < length (c :: s)).
  { intros x s' Hlt H. unfold cons_to in H.
    destruct (lex_string s') as [[str' r']|] eqn:E; [|discriminate].
    injection H as <- <-. apply (IH s' Hlt) in E. lia. }
  destruct (N.eqb c dquote).
  - intros [= <- <-]. cbn [length]. lia.
  - destruct (N.eqb c backslash).
    + destruct s as [|e r1]; [discriminate|].
      destruct (N.eqb e 117).
      * destruct r1 as [|h1 [|h2 [|h3 [|h4 r2]]]]; try discriminate.
        destruct (hex4 h1 h2 h3 h4); [|discriminate].
        apply Hcons. cbn [length]. lia.
      * destruct (unescape e); [|discriminate].
        apply Hcons. cbn [length]. lia.
    + destruct (N.ltb c 32); [discriminate|].
      apply Hcons. cbn [length]. lia.
Qed.

Lemma lex_number_length s l r :
  lex_number s = Some (l, r) -> length r < length s.
Proof.
  intros H. pose proof (lex_number_consumed s l r H) as ->.
  rewrite length_app. destruct l as [|c l]; [|cbn [length]; lia].
  exfalso. cbn [app] in H. destruct r as [|a r]; [discriminate|].
  cbn [lex_number] in H. destruct (N.eqb a minus).
  - destruct (lex_unsigned r) as [[]|]; discriminate.
  - unfold lex_unsigned, lex_int in H.
    destruct (N.eqb a zero).
    + destruct (lex_frac r) as [f r2], (lex_exp r2) as [e r3].
      discriminate.
    + destruct (is_digit a); [|discriminate].
      destruct (span_digits r) as [ds r1].
      destruct (lex_frac r1) as [f r2], (lex_exp r2) as [e r3].
      discriminate.
Qed.

Lemma lex_literal_fine s : s <> [] -> fine (length s) (lex_literal s).
Proof.
  intros Hs. unfold lex_literal.
  assert (Hskip : forall n, 0 < n -> length (skipn n s) < length s).
  { intros n Hn. rewrite length_skipn. destruct s; [congruence|].
    cbn [length]. lia. }
  destruct (is_prefix (js "true") s); [apply Hskip; lia|].
  destruct (is_prefix (js "false") s); [apply Hskip; lia|].
  destruct (is_prefix (js "null") s); [apply Hskip; lia|].
  destruct (lex_number s) as [[l r]|] eqn:E; [|exact I].
  apply (lex_number_length s l r E).
Qed.

(** Neither parser runs out of fuel when the fuel exceeds twice the
    length of the input, and each consumes some of its input. *)
Lemma parse_fuel f :
  (forall s, 2 * length s < f -> fine (length s) (parse_value f s))
  /\ (forall s, 2 * length s + 1 < f ->
                fine (length s) (parse_elements f s))
  /\ (forall s, 2 * length s + 1 < f ->
                fine (length s) (parse_members f s)).
Proof.
  induction f as [|f (IHv & IHe & IHm)].
  - repeat split; intros s H; lia.
  - repeat split; intros s Hf.
    + cbn [parse_value]. pose proof (skip_ws_length s) as Hs.
      destruct (skip_ws s) as [|c r] eqn:Es; [exact I|].
      cbn [length] in Hs.
      destruct (N.eqb c lbrace).
      { pose proof (skip_ws_length r) as Hr.
        destruct (skip_ws r) as [|c' r']; [exact I|]. cbn [length] in Hr.
        destruct (N.eqb c' rbrace); [cbn [fine]; lia|].
        apply fine_bind.
        - apply (fine_weaken (length r)); [lia | apply IHm; lia].
        - intros ms rest Hlt. exact Hlt. }
      destruct (N.eqb c lbracket).
      { pose proof (skip_ws_length r) as Hr.
        destruct (skip_ws r) as [|c' r']; [exact I|]. cbn [length] in Hr.
        destruct (N.eqb c' rbracket); [cbn [fine]; lia|].
        apply fine_bind.
        - apply (fine_weaken (length r)); [lia | apply IHe; lia].
        - intros vs rest Hlt. exact Hlt. }
      destruct (N.eqb c dquote).
      { destruct (lex_string r) as [[str rest]|] eqn:El; [|exact I].
        apply lex_string_length in El. cbn [fine]. lia. }
      apply (fine_weaken (length (c :: r)));
        [cbn [length]; lia | apply lex_literal_fine; discriminate].
    + cbn [parse_elements]. apply fine_bind; [apply IHv; lia|].
      intros v rest Hlt. pose proof (skip_ws_length rest) as Hr.
      destruct (skip_ws rest) as [|c r]; [exact I|]. cbn [length] in Hr.
      destruct (N.eqb c comma).
      { apply fine_bind.
        - apply (fine_weaken (length r)); [lia | apply IHe; lia].
        - intros vs rest' Hlt'. exact Hlt'. }
      destruct (N.eqb c rbracket); [cbn [fine]; lia | exact I].
    + cbn [parse_members]. pose proof (skip_ws_length s) as Hs.
      destruct (skip_ws s) as [|q r]; [exact I|]. cbn [length] in Hs.
      destruct (N.eqb q dquote); [|exact I].
      destruct (lex_string r) as [[key r1]|] eqn:El; [|exact I].
      apply lex_string_length in El.
      pose proof (skip_ws_length r1) as Hr1.
      destruct (skip_ws r1) as [|c r2]; [exact I|]. cbn [length] in Hr1.
      destruct (N.eqb c colon); [|exact I].
      apply fine_bind.
      { apply (fine_weaken (length r2)); [lia | apply IHv; lia]. }
      intros v rest Hlt. pose proof (skip_ws_length rest) as Hr.
      destruct (skip_ws rest) as [|c' r3]; [exact I|]. cbn [length] in Hr.
      destruct (N.eqb c' comma).
      { apply fine_bind.
        - apply (fine_weaken (length r3)); [lia | apply IHm; lia].
        - intros ms rest' Hlt'. exact Hlt'. }
      destruct (N.eqb c' rbrace); [cbn [fine]; lia | exact I].
Qed.

(** [JSON.parse] never stops for lack of fuel: a failure of [parse] is
    a syntax error of the text. *)
Lemma parse_fuel_enough text :
  parse_value (2 * length text + 1) text <> OutOfFuel.
Proof.
  destruct (parse_fuel (2 * length text + 1)) as (Hv & _).
  specialize (Hv text ltac:(lia)). intros E. rewrite E in Hv. exact Hv.
Qed.

End JSONFacts.

(** ** What a match consumed *)

Section Through.
Import RegExp.

Lemma star_greedy_through p k s res :
  star_greedy p k s = Some res ->
  exists u s', s = u ++ s' /\ k s' = Some res.
Proof.
  induction s as [|c s IH]; simpl.
  - intros H. exists [], []. split; [reflexivity | assumption].
  - destruct (p c).
    + destruct (star_greedy p k s) as [r|] eqn:E.
      * intros [= ->]. destruct (IH eq_refl) as (u & s' & -> & Hk).
        exists (c :: u), s'. split; [reflexivity | assumption].
      * intros H. exists [], (c :: s). split; [reflexivity | assumption].
    + intros H. exists [], (c :: s). split; [reflexivity | assumption].
Qed.

Lemma star_lazy_through p k s res :
  star_lazy p k s = Some res ->
  exists u s', s = u ++ s' /\ k s' = Some res.
Proof.
  induction s as [|c s IH]; rewrite star_lazy_eq.
  - destruct (k []) eqn:E; [|discriminate].
    intros [= ->]. exists [], []. split; [reflexivity | assumption].
  - destruct (k (c :: s)) eqn:E.
    + intros [= ->]. exists [], (c :: s). split; [reflexivity | assumption].
    + destruct (p c); [|discriminate].
      intros H. destruct (IH H) as (u & s' & -> & Hk).
      exists (c :: u), s'. split; [reflexivity | assumption].
Qed.

(** A match succeeds through its continuation, run on a suffix of the
    input. *)
Lemma m_through r :
  forall s cap k res,
    m r s cap k = Some res ->
    exists u s' cap', s = u ++ s' /\ k s' cap' = Some res.
Proof.
  induction r as [|c|p|r1 IH1 r2 IH2|r1 IH1|p|p|r1 IH1];
    intros s cap k res; cbn [m].
  - intros H. exists [], s, cap. split; [reflexivity | assumption].
  - destruct s as [|x s]; [discriminate|].
    destruct (N.eqb x c); [|discriminate].
    intros H. exists [x], s, cap. split; [reflexivity | assumption].
  - destruct s as [|x s]; [discriminate|].
    destruct (p x); [|discriminate].
    intros H. exists [x], s, cap. split; [reflexivity | assumption].
  - intros H. apply IH1 in H as (u1 & s1 & c1 & -> & H).
    apply IH2 in H as (u2 & s2 & c2 & -> & H).
    exists (u1 ++ u2), s2, c2. split; [apply app_assoc | assumption].
  - destruct (m r1 s cap k) as [r|] eqn:E.
    + intros [= ->]. apply IH1 in E. exact E.
    + intros H. exists [], s, cap. split; [reflexivity | assumption].
  - intros H. apply star_greedy_through in H as (u & s' & -> & H).
    exists u, s', cap. split; [reflexivity | assumption].
  - intros H. apply star_lazy_through in H as (u & s' & -> & H).
    exists u, s', cap. split; [reflexivity | assumption].
  - intros H. apply IH1 in H as (u & s' & c' & -> & H).
    eexists u, s', _. split; [reflexivity | exact H].
Qed.

Lemma exec_through r text a :
  exec r text = Some a ->
  exists u s, text = u ++ s /\ match_at r s = Some a.
Proof.
  induction text as [|x text IH]; cbn [exec].
  - destruct (match_at r []) eqn:E; [|discriminate].
    intros [= ->]. exists [], []. split; [reflexivity | assumption].
  - destruct (match_at r (x :: text)) eqn:E.
    + intros [= ->]. exists [], (x :: text).
      split; [reflexivity | assumption].
    + intros H. destruct (IH H) as (u & s & -> & Hm).
      exists (x :: u), s. split; [reflexivity | assumption].
Qed.

Lemma firstn_pos n (x : codeunit) v :
  0 < n -> exists g, firstn n (x :: v) = x :: g.
Proof.
  destruct n; [lia|]. intros _. eexists. reflexivity.
Qed.

(** The group of the fenced pattern starts at an opening brace. *)
Lemma body_capture s c res :
  m (Cat body_re close_re) s c accept = Some res ->
  exists g v, s = lbrace :: v /\ fst res = Some (lbrace :: g).
Proof.
  unfold body_re. remember close_re as close eqn:Hclose. cbn [m].
  destruct s as [|x v]; [discriminate|].
  destruct (N.eqb_spec x lbrace) as [->|]; [|discriminate].
  intros H. apply star_lazy_through in H as (u & s' & -> & H).
  destruct s' as [|y s'']; [discriminate|].
  destruct (N.eqb y rbrace); [|discriminate].
  rewrite Hclose in H. unfold close_re in H. rewrite after_group in H.
  destruct (closes_block s''); [|discriminate].
  injection H as <-. cbn [fst].
  assert (Hpos : 0 < length (lbrace :: u ++ y :: s'') - length s'')
    by (cbn [length]; rewrite length_app; cbn [length]; lia).
  destruct (firstn_pos _ lbrace (u ++ y :: s'') Hpos) as [g Hg].
  exists g, (u ++ y :: s''). split; [reflexivity|].
  f_equal. exact Hg.
Qed.

Lemma match_at_json_shape s a :
  match_at jsonRegex s = Some a ->
  exists u g v, s = u ++ lbrace :: v /\ at1 a = Some (lbrace :: g).
Proof.
  unfold match_at.
  destruct (m jsonRegex s None accept) as [[cap rest]|] eqn:E;
    [|discriminate].
  intros [= <-]. cbn [at1].
  change jsonRegex with
    (Cat (lit fence)
       (Cat (Opt (lit (js "json")))
          (Cat (Star is_space) (Cat body_re close_re)))) in E.
  cbn [m] in E.
  apply m_through in E as (u1 & s1 & c1 & -> & E).
  assert (E2 : exists u2 s2,
             s1 = u2 ++ s2 /\
             star_greedy is_space
               (fun s' => m (Cat body_re close_re) s' c1 accept) s2
             = Some (cap, rest)).
  { match type of E with
    | match ?x with _ => _ end = _ => destruct x eqn:E1
    end.
    - injection E as ->. apply m_through in E1 as (u & s' & c' & -> & E1).
      exists u, s'. split; [reflexivity | exact E1].
    - exists [], s1. split; [reflexivity | exact E]. }
  destruct E2 as (u2 & s2 & -> & E2).
  apply star_greedy_through in E2 as (u3 & s3 & -> & E3).
  apply body_capture in E3 as (g & v & -> & Hcap). cbn [fst] in Hcap.
  exists (u1 ++ u2 ++ u3), g, v. split; [|assumption].
  rewrite <- !app_assoc. reflexivity.
Qed.

Lemma match_json_shape text a :
  String_match text jsonRegex = Some a ->
  exists u g v, text = u ++ lbrace :: v /\ at1 a = Some (lbrace :: g).
Proof.
  unfold String_match. intros H.
  apply exec_through in H as (u0 & s & -> & H).
  apply match_at_json_shape in H as (u & g & v & -> & Hcap).
  exists (u0 ++ u), g, v. split; [apply app_assoc | assumption].
Qed.

Lemma match_fallback_shape text a :
  String_match text fallbackRegex = Some a ->
  exists u g v, text = u ++ lbrace :: v /\ at1 a = Some (lbrace :: g).
Proof.
  unfold String_match. intros H.
  apply exec_through in H as (u0 & s & -> & H).
  destruct s as [|x r]; [discriminate|].
  rewrite match_at_fallback in H.
  destruct (N.eqb_spec x lbrace) as [->|]; [|discriminate].
  destruct (last_index_of rbrace r); [|discriminate].
  injection H as <-. exists u0. eexists _, r. split; reflexivity.
Qed.

End Through.

(** ** The extractor *)

Section ExtractorFacts.
Import RegExp.

(** The call when the fenced pattern yields a candidate. *)
Lemma extract_fenced text g w :
  matched_group (String_match text jsonRegex) = Some g ->
  extractJson text w =
  match JSON.parse g with
  | inr v => (Normal v, w)
  | inl e => (Normal JNull, w ++ [(js "Error extracting JSON:", e)])
  end.
Proof.
  intros H. unfold extractJson, try_catch, bindM, JSON_parse, ret.
  rewrite H. destruct (JSON.parse g); reflexivity.
Qed.

(** The call when it yields none. *)
Lemma extract_fallback text w :
  matched_group (String_match text jsonRegex) = None ->
  extractJson text w =
  (Normal
     match matched_group (String_match text fallbackRegex) with
     | Some span =>
         match JSON.parse span with
         | inr v => v
         | inl _ => JNull
         end
     | None => JNull
     end, w).
Proof.
  intros H. unfold extractJson, try_catch, bindM, JSON_parse, ret.
  rewrite H.
  destruct (matched_group (String_match text fallbackRegex)) as [span|];
    [|reflexivity].
  destruct (JSON.parse span); reflexivity.
Qed.

Lemma matched_group_fallback text :
  matched_group (String_match text fallbackRegex)
  = first_to_last_brace text.
Proof.
  destruct (String_match text fallbackRegex) as [a|] eqn:E.
  - destruct (match_fallback_shape text a E) as (u & g & v & _ & Hg).
    unfold String_match in E. rewrite exec_fallback in E.
    destruct (first_to_last_brace text) as [span|]; [|discriminate].
    injection E as <-. cbn [matched_group at1] in *.
    injection Hg as ->. reflexivity.
  - unfold String_match in E. rewrite exec_fallback in E.
    destruct (first_to_last_brace text); [discriminate | reflexivity].
Qed.

Lemma matched_group_brace text r g :
  r = jsonRegex \/ r = fallbackRegex ->
  matched_group (String_match text r) = Some g ->
  exists g', g = lbrace :: g'.
Proof.
  intros Hr. destruct (String_match text r) as [a|] eqn:E; [|discriminate].
  assert (H : exists u g0 v, text = u ++ lbrace :: v
                             /\ at1 a = Some (lbrace :: g0)).
  { destruct Hr as [-> | ->];
      [apply match_json_shape | apply match_fallback_shape]; exact E. }
  destruct H as (u & g0 & v & _ & Hg). cbn [matched_group]. rewrite Hg.
  intros [= <-]. exists g0. reflexivity.
Qed.

(** A text that starts at an opening brace parses to an object only. *)
Lemma parse_brace_object s v :
  JSON.parse (lbrace :: s) = inr v -> is_object v = true.
Proof.
  unfold JSON.parse.
  replace (2 * length (lbrace :: s) + 1)
    with (S (2 * length (lbrace :: s))) by lia.
  rewrite JSONFacts.parse_value_lbrace.
  destruct (skip_ws s) as [|c r']; [discriminate|].
  destruct (N.eqb c rbrace).
  - destruct (skip_ws r'); [|discriminate]. intros [= <-]. reflexivity.
  - destruct (parse_members _ s) as [ms rest| |]; cbn [bind];
      try discriminate.
    destruct (skip_ws rest); [|discriminate]. intros [= <-]. reflexivity.
Qed.

(** What the call returns: the absence signal or an object. *)
Lemma extract_result text w :
  exists v w', extractJson text w = (Normal v, w')
               /\ (v = JNull
                   \/ is_object v = true /\ exists s, JSON.parse s = inr v).
Proof.
  destruct (matched_group (String_match text jsonRegex)) as [g|] eqn:E.
  - rewrite (extract_fenced text g w E).
    destruct (matched_group_brace text jsonRegex g (or_introl eq_refl) E)
      as [g' ->].
    destruct (JSON.parse (lbrace :: g')) as [e|v] eqn:P.
    + do 2 eexists. split; [reflexivity | left; reflexivity].
    + do 2 eexists. split; [reflexivity|]. right.
      split; [apply (parse_brace_object g' v P) | eexists; exact P].
  - rewrite (extract_fallback text w E).
    destruct (matched_group (String_match text fallbackRegex))
      as [g|] eqn:F.
    + destruct (matched_group_brace text fallbackRegex g
                  (or_intror eq_refl) F) as [g' ->].
      destruct (JSON.parse (lbrace :: g')) as [e|v] eqn:P.
      * do 2 eexists. split; [reflexivity | left; reflexivity].
      * do 2 eexists. split; [reflexivity|]. right.
        split; [apply (parse_brace_object g' v P) | eexists; exact P].
    + do 2 eexists. split; [reflexivity | left; reflexivity].
Qed.

End ExtractorFacts.

(** ** The claims of the specification *)

Section Claims.
Import RegExp.

Lemma no_lbrace_no_group text r :
  r = jsonRegex \/ r = fallbackRegex ->
  ~ In lbrace text ->
  matched_group (String_match text r) = None.
Proof.
  intros Hr Hno.
  destruct (String_match text r) as [a|] eqn:E; [|reflexivity].
  assert (H : exists u g0 v, text = u ++ lbrace :: v
                             /\ at1 a = Some (lbrace :: g0)).
  { destruct Hr as [-> | ->];
      [apply match_json_shape | apply match_fallback_shape]; exact E. }
  destruct H as (u & g0 & v & -> & _). exfalso. apply Hno.
  apply in_or_app. right. left. reflexivity.
Qed.

Lemma no_braces_no_lbrace text : no_braces text = true -> ~ In lbrace text.
Proof.
  unfold no_braces. intros H Hin.
  rewrite forallb_forall in H. specialize (H lbrace Hin). discriminate.
Qed.

(** C1, as the code has it.  When the fenced pattern yields a candidate
    that is not valid JSON, the parse error is caught inside the call:
    the call completes normally with the absence signal, the error is
    written to the console once, and the fallback search has no part in
    the result. *)
Theorem fenced_parse_failure_is_caught text g e w :
  matched_group (String_match text jsonRegex) = Some g ->
  JSON.parse g = inl e ->
  extractJson text w
  = (Normal JNull, w ++ [(js "Error extracting JSON:", e)]).
Proof.
  intros Hm Hp. rewrite (extract_fenced text g w Hm), Hp. reflexivity.
Qed.

Lemma fenced_parse_failure_is_caught_witness :
  extractJson text_invalid_fenced []
  = (Normal JNull, [(js "Error extracting JSON:", SyntaxError)]).
Proof.
  apply (fenced_parse_failure_is_caught text_invalid_fenced
           (js "{a:1}") SyntaxError []); reflexivity.
Defined.

(** C1, as stated, fails: on the fenced block with the body [{a:1}] of
    the specification the call does not end in an exception, it returns
    the absence signal. *)
Lemma fenced_failure_does_not_propagate :
  matched_group (String_match text_invalid_fenced jsonRegex)
  = Some (js "{a:1}")
  /\ JSON.parse (js "{a:1}") = inl SyntaxError
  /\ returned (extractJson text_invalid_fenced) [] = Normal JNull
  /\ returned (extractJson text_invalid_fenced) [] <> Throw SyntaxError.
Proof. repeat split; try reflexivity. discriminate. Qed.

(** C2.  For every string the call completes normally, with a parsed
    JSON value or the absence signal: no exception leaves it. *)
Theorem extractJson_never_throws :
  forall text w,
  exists v w',
    extractJson text w = (Normal v, w')
    /\ (v = JNull \/ exists s, JSON.parse s = inr v).
Proof.
  intros text w.
  destruct (extract_result text w) as (v & w' & H & [Hv | [_ Hv]]);
    exists v, w'; split; auto.
Qed.

(** C5.  When the fenced pattern matches nowhere, the call parses the
    span from the first opening brace to the last closing brace of the
    whole text and returns its value, or the absence signal when there
    is no such span or it does not parse. *)
Theorem fallback_first_to_last_brace text w :
  String_match text jsonRegex = None ->
  extractJson text w =
  (Normal
     match first_to_last_brace text with
     | Some span =>
         match JSON.parse span with
         | inr v => v
         | inl _ => JNull
         end
     | None => JNull
     end, w).
Proof.
  intros H. rewrite extract_fallback by (rewrite H; reflexivity).
  rewrite matched_group_fallback. reflexivity.
Qed.

(** C5, the text of the specification: [prefix {"a":1} suffix] has no
    fence, its span is [{"a":1}] and the call returns that object. *)
Lemma fallback_first_to_last_brace_witness :
  String_match text_prefix_suffix jsonRegex = None
  /\ first_to_last_brace text_prefix_suffix
     = Some (js "{" ++ quoted "a" ++ js ":1}")
  /\ extractJson text_prefix_suffix [] = (Normal object_a1, []).
Proof.
  split; [reflexivity | split; [reflexivity|]].
  rewrite (fallback_first_to_last_brace text_prefix_suffix [] eq_refl).
  reflexivity.
Defined.

(** C6.  When the fenced pattern matches nowhere and the span the
    fallback pattern finds does not parse, the call returns the absence
    signal, completes normally and writes nothing to the console. *)
Theorem fallback_parse_failure_swallowed text span e w :
  String_match text jsonRegex = None ->
  matched_group (String_match text fallbackRegex) = Some span ->
  JSON.parse span = inl e ->
  extractJson text w = (Normal JNull, w).
Proof.
  intros H Hs Hp. rewrite extract_fallback by (rewrite H; reflexivity).
  rewrite Hs, Hp. reflexivity.
Qed.

(** C6, the text of the specification: the span of
    [{a:1} and {"b":2}] is the whole text, which is not valid JSON. *)
Lemma fallback_parse_failure_swallowed_witness :
  first_to_last_brace text_two_objects = Some text_two_objects
  /\ JSON.parse text_two_objects = inl SyntaxError
  /\ extractJson text_two_objects [] = (Normal JNull, []).
Proof.
  split; [reflexivity | split; [reflexivity|]].
  apply (fallback_parse_failure_swallowed text_two_objects
           text_two_objects SyntaxError []); reflexivity.
Defined.

(** C7.  When the fenced pattern yields a candidate that does not
    parse, the call returns the absence signal whatever the fallback
    pattern would find: a valid object in the span of the fallback
    search is not returned. *)
Theorem fenced_failure_skips_fallback text g e w :
  matched_group (String_match text jsonRegex) = Some g ->
  JSON.parse g = inl e ->
  returned (extractJson text) w = Normal JNull
  /\ forall span v,
       matched_group (String_match text fallbackRegex) = Some span ->
       JSON.parse span = inr v ->
       is_object v = true /\ returned (extractJson text) w <> Normal v.
Proof.
  intros Hm Hp. unfold returned.
  rewrite (extract_fenced text g w Hm), Hp.
  split; [reflexivity|]. intros span v Hs Hv.
  destruct (matched_group_brace text fallbackRegex span
              (or_intror eq_refl) Hs) as [g' ->].
  pose proof (parse_brace_object g' v Hv) as Ho.
  split; [assumption|]. cbn [fst]. intros [= <-]. discriminate.
Qed.

(** C7 on [{"x": "```{a}```"}]: the fenced candidate [{a}] does not
    parse, the span of the fallback search is the whole text and a
    valid object, and the call returns the absence signal. *)
Lemma fenced_failure_skips_fallback_witness :
  matched_group (String_match text_fence_in_string fallbackRegex)
  = Some text_fence_in_string
  /\ JSON.parse text_fence_in_string
     = inr (JObj [(js "x", JStr (fence ++ js "{a}" ++ fence))])
  /\ returned (extractJson text_fence_in_string) [] = Normal JNull.
Proof.
  split; [reflexivity | split; [reflexivity|]].
  apply (fenced_failure_skips_fallback text_fence_in_string
           (js "{a}") SyntaxError []); reflexivity.
Defined.

(** C8.  A text with no brace character yields the absence signal. *)
Theorem no_braces_absent text w :
  no_braces text = true ->
  extractJson text w = (Normal JNull, w).
Proof.
  intros H. apply no_braces_no_lbrace in H.
  rewrite extract_fallback
    by (apply no_lbrace_no_group; [left; reflexivity | assumption]).
  rewrite no_lbrace_no_group; [reflexivity | right; reflexivity | assumption].
Qed.

Lemma no_braces_absent_witness :
  extractJson (js "no json in [this] text") [] = (Normal JNull, []).
Proof.
  apply (no_braces_absent (js "no json in [this] text") []). reflexivity.
Defined.

(** C9.  The call never returns a bare array, string or number: both
    patterns capture a span that starts at an opening brace, and such a
    span parses to an object only. *)
Theorem bare_values_never_extracted text w v :
  bare v = true ->
  returned (extractJson text) w <> Normal v.
Proof.
  intros Hb. unfold returned.
  destruct (extract_result text w) as (v' & w' & -> & [-> | [Ho _]]);
    cbn [fst]; intros [= <-].
  - discriminate.
  - destruct v'; discriminate.
Qed.

(** C9 on the text [[1,2,3]], a valid JSON array. *)
Lemma bare_values_never_extracted_witness :
  JSON.parse (js "[1,2,3]")
  = inr (JArr [JNum (js "1"); JNum (js "2"); JNum (js "3")])
  /\ returned (extractJson (js "[1,2,3]")) []
     <> Normal (JArr [JNum (js "1"); JNum (js "2"); JNum (js "3")]).
Proof.
  split; [reflexivity|].
  apply (bare_values_never_extracted (js "[1,2,3]") []). reflexivity.
Defined.

End Claims.

(** ** One fenced block *)

Section OneBlock.
Import RegExp.

Lemma positions_from_in n pat u x v :
  is_prefix pat (x :: v) = true ->
  In (n + length u) (positions_from n pat (u ++ x :: v)).
Proof.
  intros H. revert n. induction u as [|y u IH]; intros n.
  - cbn [app positions_from]. rewrite H. left. cbn [length]. lia.
  - cbn [app positions_from]. apply in_or_app. right.
    replace (n + length (y :: u)) with (S n + length u)
      by (cbn [length]; lia).
    apply IH.
Qed.

Lemma exec_eq r s :
  exec r s =
  match match_at r s with
  | Some a => Some a
  | None =>
      match s with
      | [] => None
      | _ :: s' => exec r s'
      end
  end.
Proof. destruct s; reflexivity. Qed.

(** The attempts that fail before a match are skipped. *)
Lemma exec_skip r pre X :
  (forall a x b, pre = a ++ x :: b -> match_at r (x :: b ++ X) = None) ->
  exec r (pre ++ X) = exec r X.
Proof.
  induction pre as [|y pre IH]; intros H; [reflexivity|].
  cbn [app]. rewrite exec_eq. rewrite (H [] y pre eq_refl).
  apply IH. intros a x b ->. apply (H (y :: a) x b). reflexivity.
Qed.

Lemma dropwhile_app_stop p b x t :
  p x = false -> dropwhile p (b ++ x :: t) = dropwhile p b ++ x :: t.
Proof.
  intros Hx. induction b as [|c b IH]; simpl.
  - rewrite Hx. reflexivity.
  - destruct (p c); [apply IH | reflexivity].
Qed.

Lemma closes_block_tail ws' post :
  forallb is_space ws' = true ->
  closes_block (ws' ++ fence ++ post) = true.
Proof.
  intros H. unfold closes_block.
  change (ws' ++ fence ++ post)
    with (ws' ++ backtick :: (backtick :: backtick :: post)).
  rewrite dropwhile_app by (assumption || reflexivity). reflexivity.
Qed.

(** C4, as stated, fails.  The text below has five lines, of which the
    second opens a fenced block tagged [json] and the fourth closes it;
    the line between them is a valid JSON object.  Its string holds a
    closing brace, a space and three backticks, the lazy group stops
    there, the candidate does not parse, and the call returns the
    absence signal instead of the object. *)
Lemma single_fenced_block_not_extracted :
  lines text_block_with_fence_in_string
  = [js "Result:"; fence ++ js "json"; compact object_end_fence;
     fence; js "Done."]
  /\ map (is_prefix fence) (lines text_block_with_fence_in_string)
     = [false; true; false; true; false]
  /\ JSON.parse (compact object_end_fence) = inr object_end_fence
  /\ is_object object_end_fence = true
  /\ matched_group
       (String_match text_block_with_fence_in_string jsonRegex)
     = Some (js "{" ++ quoted "end" ++ js ":" ++ [dquote; rbrace])
  /\ returned (extractJson text_block_with_fence_in_string) []
     = Normal JNull
  /\ returned (extractJson text_block_with_fence_in_string) []
     <> Normal object_end_fence.
Proof. repeat split; try reflexivity. discriminate. Qed.

End OneBlock.

(** ** The round trip and the fenced block *)

Section RoundTrip.
Import RegExp.

Lemma early_close_split u v :
  early_close (u ++ rbrace :: v) = false -> closes_block v = false.
Proof.
  induction u as [|c u IH]; cbn [app early_close]; intros H;
    apply orb_false_iff in H as [H1 H2].
  - rewrite N.eqb_refl in H1. exact H1.
  - apply IH, H2.
Qed.

Lemma closes_block_extend b t :
  closes_block (b ++ [rbrace]) = false ->
  closes_block (b ++ rbrace :: t) = false.
Proof.
  unfold closes_block. rewrite !dropwhile_app_stop by reflexivity.
  destruct (dropwhile is_space b) as [|x [|y [|z d]]];
    cbn [app fence is_prefix].
  - reflexivity.
  - intros _. destruct (N.eqb backtick x); reflexivity.
  - intros _. destruct (N.eqb backtick x), (N.eqb backtick y); reflexivity.
  - intros H. exact H.
Qed.

Lemma fence_prefix_short x b rest :
  is_prefix fence (x :: b ++ backtick :: backtick :: rest)
  = is_prefix fence (x :: b ++ [backtick; backtick]).
Proof.
  destruct b as [|y [|z b]]; cbn [app fence is_prefix];
    rewrite ?N.eqb_refl, ?andb_true_r; reflexivity.
Qed.

(** No attempt succeeds before the opening fence when no fence starts
    there. *)
Lemma no_fence_before pre rest :
  positions fence (pre ++ [backtick; backtick]) = [] ->
  forall a x b,
    pre = a ++ x :: b ->
    match_at jsonRegex (x :: b ++ fence ++ rest) = None.
Proof.
  intros Hpos a x b E. apply match_at_no_fence.
  change (fence ++ rest) with (backtick :: backtick :: backtick :: rest).
  rewrite fence_prefix_short.
  destruct (is_prefix fence (x :: b ++ [backtick; backtick])) eqn:Ep;
    [exfalso|reflexivity].
  pose proof (positions_from_in 0 fence a x (b ++ [backtick; backtick]) Ep)
    as Hin.
  replace (a ++ x :: b ++ [backtick; backtick])
    with (pre ++ [backtick; backtick]) in Hin
    by (rewrite E, <- app_assoc; reflexivity).
  fold (positions fence (pre ++ [backtick; backtick])) in Hin.
  rewrite Hpos in Hin. exact Hin.
Qed.

(** No closing brace of the body closes the block early. *)
Lemma body_without_early_close mid tail :
  early_close (lbrace :: mid ++ [rbrace]) = false ->
  forall a b,
    mid = a ++ rbrace :: b -> closes_block (b ++ rbrace :: tail) = false.
Proof.
  intros Hec a b E. apply closes_block_extend.
  apply (early_close_split (lbrace :: a)).
  rewrite E in Hec. cbn [app]. rewrite <- app_assoc in Hec. exact Hec.
Qed.

(** The fenced candidate of a block that no fence precedes and whose
    body is not closed early is the body. *)
Lemma fenced_candidate pre tag ws mid ws' post :
  tag = [] \/ tag = js "json" ->
  forallb is_space ws = true ->
  forallb is_space ws' = true ->
  positions fence (pre ++ [backtick; backtick]) = [] ->
  early_close (lbrace :: mid ++ [rbrace]) = false ->
  matched_group
    (String_match
       (pre ++ fence ++ tag ++ ws ++ (lbrace :: mid ++ [rbrace])
          ++ ws' ++ fence ++ post) jsonRegex)
  = Some (lbrace :: mid ++ [rbrace]).
Proof.
  intros Htag Hws Hws' Hpos Hec.
  set (tail := ws' ++ fence ++ post).
  assert (E : (lbrace :: mid ++ [rbrace]) ++ tail
              = lbrace :: mid ++ rbrace :: tail)
    by (cbn [app]; rewrite <- app_assoc; reflexivity).
  rewrite E.
  destruct (match_at_fenced tag ws mid tail Htag Hws
              (closes_block_tail ws' post Hws')
              (body_without_early_close mid tail Hec)) as [whole Hm].
  unfold String_match.
  rewrite (exec_skip jsonRegex pre _ (no_fence_before pre _ Hpos)).
  rewrite exec_eq, Hm. reflexivity.
Qed.



(** C4, as the code has it.  Let a text hold a fenced block in the shape
    the fenced pattern looks for: an opening fence that no three
    backticks precede, the tag [json] or none, whitespace, a body from
    an opening to a closing brace, whitespace and the closing fence.
    When no closing brace of the body is followed by optional whitespace
    and three backticks and the body is valid JSON, the call returns its
    value and writes nothing, whatever follows the block. *)
Theorem single_fenced_block_extracted pre tag ws mid ws' post J w :
  let body := lbrace :: mid ++ [rbrace] in
  let text := pre ++ fence ++ tag ++ ws ++ body ++ ws' ++ fence ++ post in
  tag = [] \/ tag = js "json" ->
  forallb is_space ws = true ->
  forallb is_space ws' = true ->
  positions fence (pre ++ [backtick; backtick]) = [] ->
  early_close body = false ->
  JSON.parse body = inr J ->
  extractJson text w = (Normal J, w).
Proof.
  intros body text Htag Hws Hws' Hpos Hec HJ.
  pose proof (fenced_candidate pre tag ws mid ws' post Htag Hws Hws' Hpos Hec)
    as Hg.
  fold body in Hg. fold text in Hg.
  rewrite (extract_fenced text body w Hg), HJ. reflexivity.
Qed.

(** C4 on [Here: ```json\n{"a":"```"}\n``` and ```more```]: three
    backticks occur in the body and after the block, at 6, 20, 26, 34
    and 41. *)
Lemma single_fenced_block_extracted_witness :
  positions fence text_fences_around = [6; 20; 26; 34; 41]
  /\ extractJson text_fences_around [] = (Normal object_fence_string, []).
Proof.
  split; [reflexivity|].
  apply (single_fenced_block_extracted (js "Here: ") (js "json") [LF]
           (quoted "a" ++ js ":" ++ [dquote] ++ fence ++ [dquote]) [LF]
           (js " and " ++ fence ++ js "more" ++ fence)
           object_fence_string []);
    try reflexivity.
  right. reflexivity.
Defined.


End RoundTrip.

(** ** More on the fallback search *)

Section Embedded.
Import RegExp.

Lemma index_of_lacks c pre x :
  lacks c pre = true -> index_of c (pre ++ c :: x) = Some (length pre).
Proof.
  induction pre as [|a pre IH]; cbn [lacks forallb app index_of length].
  - intros _. rewrite N.eqb_refl. reflexivity.
  - intros H. apply andb_true_iff in H as [Ha Hpre].
    apply negb_true_iff in Ha. rewrite Ha, (IH Hpre). reflexivity.
Qed.

Lemma last_index_of_none c post :
  lacks c post = true -> last_index_of c post = None.
Proof.
  induction post as [|a post IH]; cbn [lacks forallb last_index_of];
    [reflexivity|].
  intros H. apply andb_true_iff in H as [Ha Hpost].
  apply negb_true_iff in Ha. rewrite (IH Hpost), Ha. reflexivity.
Qed.

Lemma last_index_of_lacks c y post :
  lacks c post = true -> last_index_of c (y ++ c :: post) = Some (length y).
Proof.
  intros H. induction y as [|a y IH]; cbn [app last_index_of length].
  - rewrite (last_index_of_none c post H), N.eqb_refl. reflexivity.
  - rewrite IH. reflexivity.
Qed.

(** The span of a brace-delimited piece between a prefix without opening
    brace and a suffix without closing brace is that piece. *)
Lemma first_to_last_brace_embedded pre mid post :
  lacks lbrace pre = true -> lacks rbrace post = true ->
  first_to_last_brace (pre ++ lbrace :: mid ++ rbrace :: post)
  = Some (lbrace :: mid ++ [rbrace]).
Proof.
  intros Hpre Hpost. unfold first_to_last_brace.
  rewrite (index_of_lacks lbrace pre _ Hpre).
  replace (pre ++ lbrace :: mid ++ rbrace :: post)
    with ((pre ++ lbrace :: mid) ++ rbrace :: post)
    by (rewrite <- app_assoc; reflexivity).
  rewrite (last_index_of_lacks rbrace _ post Hpost).
  rewrite length_app. cbn [length].
  destruct (Nat.ltb_spec (length pre) (length pre + S (length mid)));
    [|lia].
  f_equal. unfold substring. rewrite <- app_assoc. cbn [app].
  rewrite skipn_app, Nat.sub_diag, skipn_all. cbn [app skipn].
  replace (S (length pre + S (length mid)) - length pre)
    with (length (lbrace :: mid ++ [rbrace]))
    by (cbn [length]; rewrite length_app; cbn [length]; lia).
  replace (lbrace :: mid ++ rbrace :: post)
    with ((lbrace :: mid ++ [rbrace]) ++ post)
    by (cbn [app]; rewrite <- app_assoc; reflexivity).
  rewrite firstn_app, Nat.sub_diag, firstn_all. cbn [firstn].
  apply app_nil_r.
Qed.

(** The serialization of a valid object is read back whatever follows. *)
Lemma parse_value_object ms fuel rest :
  valid (JObj ms) = true ->
  2 * length (compact (JObj ms) ++ rest) < fuel ->
  parse_value fuel (compact (JObj ms) ++ rest) = Ok (JObj ms) rest.
Proof.
  intros Hv Hfuel. destruct fuel as [|f]; [lia|].
  rewrite JSONFacts.compact_obj in *. cbn [app] in *.
  rewrite <- app_assoc in *. cbn [app] in *.
  rewrite JSONFacts.parse_value_lbrace. cbn [valid] in Hv.
  destruct ms as [|[k x] l]; [reflexivity|].
  assert (E : exists t,
             compact_members ((k, x) :: l) ++ rbrace :: rest = dquote :: t).
  { destruct l.
    - rewrite JSONFacts.compact_members_one. eexists. reflexivity.
    - rewrite JSONFacts.compact_members_cons. eexists. reflexivity. }
  destruct E as [t E]. rewrite E at 1.
  rewrite JSONFacts.skip_ws_head by reflexivity.
  change (N.eqb dquote rbrace) with false. cbv iota.
  rewrite JSONFacts.parse_compact_members; [reflexivity | | assumption | discriminate | ].
  - apply Forall_forall. intros kv _. apply JSONFacts.parse_compact_value.
  - cbn [length] in Hfuel. lia.
Qed.

Lemma compact_object_shape o :
  is_object o = true ->
  exists mid, compact o = lbrace :: mid ++ [rbrace].
Proof.
  destruct o as [| | | | |ms]; try discriminate. intros _.
  exists (compact_members ms). apply JSONFacts.compact_obj.
Qed.

(** The call when the fenced pattern matches nowhere and the span of the
    fallback search parses. *)
Lemma extract_span text span v w :
  String_match text jsonRegex = None ->
  first_to_last_brace text = Some span ->
  JSON.parse span = inr v ->
  extractJson text w = (Normal v, w).
Proof.
  intros Hm Hs Hp. rewrite extract_fallback by (rewrite Hm; reflexivity).
  rewrite matched_group_fallback, Hs, Hp. reflexivity.
Qed.

(** X1.  Let the fenced pattern match nowhere in a text that holds a
    piece from an opening to a closing brace, with no opening brace
    before the piece and no closing brace after it.  When the piece is
    valid JSON, the call returns the value [JSON.parse] gives for it,
    whatever else surrounds it. *)
Theorem embedded_object_extracted pre mid post v w :
  lacks lbrace pre = true -> lacks rbrace post = true ->
  String_match (pre ++ lbrace :: mid ++ rbrace :: post) jsonRegex = None ->
  JSON.parse (lbrace :: mid ++ [rbrace]) = inr v ->
  extractJson (pre ++ lbrace :: mid ++ rbrace :: post) w = (Normal v, w).
Proof.
  intros Hpre Hpost Hm Hp.
  pose proof (first_to_last_brace_embedded pre mid post Hpre Hpost) as Hs.
  exact (extract_span _ _ v w Hm Hs Hp).
Qed.

(** X1 on [The answer [1] is {"x": {"a":-0}}, as {asked.]: brackets,
    an opening brace after the piece and whitespace inside it do not
    matter. *)
Lemma embedded_object_extracted_witness :
  extractJson (js "The answer [1] is " ++ lbrace
                 :: (quoted "x" ++ js ": {" ++ quoted "a" ++ js ":-0}")
                 ++ rbrace :: js ", as {asked.") []
  = (Normal (JObj [(js "x", JObj [(js "a", JNum (js "-0"))])]), []).
Proof.
  apply (embedded_object_extracted (js "The answer [1] is ")
           (quoted "x" ++ js ": {" ++ quoted "a" ++ js ":-0}")
           (js ", as {asked.")
           (JObj [(js "x", JObj [(js "a", JNum (js "-0"))])]) []);
    reflexivity.
Defined.

Lemma skip_ws_brace junk :
  exists c r, skip_ws (junk ++ [rbrace]) = c :: r.
Proof.
  unfold skip_ws. rewrite dropwhile_app_stop by reflexivity.
  destruct (dropwhile is_ws junk) as [|c r]; do 2 eexists; reflexivity.
Qed.

(** X2.  The fallback search is all or nothing.  Let a text hold the
    compact JSON text of an object (no whitespace between its tokens),
    then any text, then a closing brace, with no opening brace before
    the object and no closing brace after that later brace, and let the
    fenced pattern match nowhere.  The span runs from the object's
    opening brace to the later brace, does not parse, and the call
    returns the absence signal and writes nothing. *)
Theorem later_brace_blocks_fallback pre o junk post w :
  is_object o = true -> valid o = true ->
  lacks lbrace pre = true -> lacks rbrace post = true ->
  String_match (pre ++ compact o ++ junk ++ rbrace :: post) jsonRegex
  = None ->
  extractJson (pre ++ compact o ++ junk ++ rbrace :: post) w
  = (Normal JNull, w).
Proof.
  intros Ho Hv Hpre Hpost Hm.
  rewrite extract_fallback by (rewrite Hm; reflexivity).
  rewrite matched_group_fallback.
  destruct o as [| | | | |ms]; try discriminate.
  pose proof (parse_value_object ms
                (2 * length (compact (JObj ms) ++ junk ++ [rbrace]) + 1)
                (junk ++ [rbrace]) Hv ltac:(lia)) as Hp.
  rewrite JSONFacts.compact_obj in *. cbn [app] in *.
  replace (pre ++ lbrace :: (compact_members ms ++ [rbrace])
             ++ junk ++ rbrace :: post)
    with (pre ++ lbrace :: (compact_members ms ++ rbrace :: junk)
            ++ rbrace :: post)
    by (rewrite <- !app_assoc; reflexivity).
  rewrite (first_to_last_brace_embedded pre _ post Hpre Hpost).
  replace (lbrace :: (compact_members ms ++ rbrace :: junk) ++ [rbrace])
    with (lbrace :: (compact_members ms ++ [rbrace]) ++ junk ++ [rbrace])
    by (rewrite <- !app_assoc; reflexivity).
  unfold JSON.parse. rewrite Hp.
  destruct (skip_ws_brace junk) as (c & r & ->). reflexivity.
Qed.

(** X2 on two objects in one text: [{"a":1} and {"a":1}]. *)
Lemma later_brace_blocks_fallback_witness :
  extractJson (compact object_a1 ++ js " and " ++ compact object_a1) []
  = (Normal JNull, []).
Proof.
  apply (later_brace_blocks_fallback [] object_a1
           (js " and {" ++ quoted "a" ++ js ":1") [] []); reflexivity.
Defined.

End Embedded.

(** ** What is extracted is a piece of the text *)

Section Piece.
Import RegExp.

Lemma last_index_of_split c s :
  forall j, last_index_of c s = Some j ->
            exists a b, s = a ++ c :: b /\ length a = j.
Proof.
  induction s as [|x s IH]; intros j; cbn [last_index_of]; [discriminate|].
  destruct (last_index_of c s) as [j'|].
  - intros [= <-]. destruct (IH j' eq_refl) as (a & b & -> & <-).
    exists (x :: a), b. split; reflexivity.
  - destruct (N.eqb_spec x c) as [->|]; [|discriminate].
    intros [= <-]. exists [], s. split; reflexivity.
Qed.

Lemma body_capture_piece s c res :
  m (Cat body_re close_re) s c accept = Some res ->
  exists g t, s = (lbrace :: g ++ [rbrace]) ++ t
              /\ fst res = Some (lbrace :: g ++ [rbrace]).
Proof.
  unfold body_re. remember close_re as close eqn:Hclose. cbn [m].
  destruct s as [|x v]; [discriminate|].
  destruct (N.eqb_spec x lbrace) as [->|]; [|discriminate].
  intros H. apply star_lazy_through in H as (u & s' & -> & H).
  destruct s' as [|y s'']; [discriminate|].
  destruct (N.eqb_spec y rbrace) as [->|]; [|discriminate].
  rewrite Hclose in H. unfold close_re in H. rewrite after_group in H.
  destruct (closes_block s''); [|discriminate].
  injection H as <-. cbn [fst]. exists u, s''.
  assert (E : lbrace :: u ++ rbrace :: s''
              = (lbrace :: u ++ [rbrace]) ++ s'')
    by (cbn [app]; rewrite <- app_assoc; reflexivity).
  split; [exact E|]. f_equal.
  change (firstn (length (lbrace :: u ++ rbrace :: s'') - length s'')
            (lbrace :: u ++ rbrace :: s'') = lbrace :: u ++ [rbrace]).
  rewrite E. apply firstn_consumed.
Qed.

Lemma match_at_json_piece s a :
  match_at jsonRegex s = Some a ->
  exists u g t, s = u ++ (lbrace :: g ++ [rbrace]) ++ t
                /\ at1 a = Some (lbrace :: g ++ [rbrace]).
Proof.
  unfold match_at.
  destruct (m jsonRegex s None accept) as [[cap rest]|] eqn:E;
    [|discriminate].
  intros [= <-]. cbn [at1].
  change jsonRegex with
    (Cat (lit fence)
       (Cat (Opt (lit (js "json")))
          (Cat (Star is_space) (Cat body_re close_re)))) in E.
  cbn [m] in E.
  apply m_through in E as (u1 & s1 & c1 & -> & E).
  assert (E2 : exists u2 s2,
             s1 = u2 ++ s2 /\
             star_greedy is_space
               (fun s' => m (Cat body_re close_re) s' c1 accept) s2
             = Some (cap, rest)).
  { match type of E with
    | match ?x with _ => _ end = _ => destruct x eqn:E1
    end.
    - injection E as ->. apply m_through in E1 as (u & s' & c' & -> & E1).
      exists u, s'. split; [reflexivity | exact E1].
    - exists [], s1. split; [reflexivity | exact E]. }
  destruct E2 as (u2 & s2 & -> & E2).
  apply star_greedy_through in E2 as (u3 & s3 & -> & E3).
  apply body_capture_piece in E3 as (g & t & -> & Hcap). cbn [fst] in Hcap.
  exists (u1 ++ u2 ++ u3), g, t. split; [|assumption].
  rewrite <- !app_assoc. reflexivity.
Qed.

Lemma match_at_fallback_piece s a :
  match_at fallbackRegex s = Some a ->
  exists g t, s = (lbrace :: g ++ [rbrace]) ++ t
              /\ at1 a = Some (lbrace :: g ++ [rbrace]).
Proof.
  destruct s as [|x r]; [discriminate|]. rewrite match_at_fallback.
  destruct (N.eqb_spec x lbrace) as [->|]; [|discriminate].
  destruct (last_index_of rbrace r) as [j|] eqn:E; [|discriminate].
  destruct (last_index_of_split rbrace r j E) as (g & t & -> & <-).
  intros [= <-]. cbn [at1]. exists g, t.
  assert (E' : lbrace :: g ++ rbrace :: t = (lbrace :: g ++ [rbrace]) ++ t)
    by (cbn [app]; rewrite <- app_assoc; reflexivity).
  assert (Hfirst : firstn (S (S (length g))) (lbrace :: g ++ rbrace :: t)
                   = lbrace :: g ++ [rbrace]).
  { rewrite E'.
    replace (S (S (length g))) with (length (lbrace :: g ++ [rbrace]))
      by (cbn [length]; rewrite length_app; cbn [length]; lia).
    rewrite firstn_app, Nat.sub_diag, firstn_all. cbn [firstn].
    apply app_nil_r. }
  split; [exact E' | f_equal; exact Hfirst].
Qed.

(** The candidate of either pattern is a piece of the text, from an
    opening to a closing brace. *)
Lemma matched_group_piece text r span :
  r = jsonRegex \/ r = fallbackRegex ->
  matched_group (String_match text r) = Some span ->
  exists u g t, text = u ++ span ++ t /\ span = lbrace :: g ++ [rbrace].
Proof.
  intros Hr. unfold String_match.
  destruct (exec r text) as [a|] eqn:E; [|discriminate].
  apply exec_through in E as (u & s & -> & E).
  assert (H : exists u' g t, s = u' ++ (lbrace :: g ++ [rbrace]) ++ t
                             /\ at1 a = Some (lbrace :: g ++ [rbrace])).
  { destruct Hr as [-> | ->].
    - apply match_at_json_piece, E.
    - apply match_at_fallback_piece in E as (g & t & -> & Hc).
      exists [], g, t. split; [reflexivity | assumption]. }
  destruct H as (u' & g & t & -> & Hc). cbn [matched_group]. rewrite Hc.
  intros [= <-]. exists (u ++ u'), g, t.
  split; [rewrite <- !app_assoc; reflexivity | reflexivity].
Qed.

(** X3.  Whatever the call returns besides the absence signal is the
    value [JSON.parse] gives for a contiguous piece of the text that
    starts at an opening brace and ends at a closing brace: the call
    never returns anything that is not written in the text. *)
Theorem extracted_is_parsed_piece text w v :
  returned (extractJson text) w = Normal v ->
  v <> JNull ->
  exists u g t,
    text = u ++ (lbrace :: g ++ [rbrace]) ++ t
    /\ JSON.parse (lbrace :: g ++ [rbrace]) = inr v.
Proof.
  unfold returned. intros Hr Hv.
  destruct (matched_group (String_match text jsonRegex)) as [span|] eqn:E.
  - rewrite (extract_fenced text span w E) in Hr.
    destruct (matched_group_piece text jsonRegex span (or_introl eq_refl) E)
      as (u & g & t & Ht & ->).
    destruct (JSON.parse (lbrace :: g ++ [rbrace])) as [e|v'] eqn:P;
      cbn [fst] in Hr; injection Hr as <-; [congruence|].
    exists u, g, t. split; assumption.
  - rewrite (extract_fallback text w E) in Hr. cbn [fst] in Hr.
    destruct (matched_group (String_match text fallbackRegex))
      as [span|] eqn:F; [|injection Hr as <-; congruence].
    destruct (matched_group_piece text fallbackRegex span
                (or_intror eq_refl) F) as (u & g & t & Ht & ->).
    destruct (JSON.parse (lbrace :: g ++ [rbrace])) as [e|v'] eqn:P;
      injection Hr as <-; [congruence|].
    exists u, g, t. split; assumption.
Qed.

Lemma extracted_is_parsed_piece_witness :
  exists u g t,
    text_one_block = u ++ (lbrace :: g ++ [rbrace]) ++ t
    /\ JSON.parse (lbrace :: g ++ [rbrace]) = inr object_a1.
Proof.
  apply (extracted_is_parsed_piece text_one_block [] object_a1);
    [reflexivity | discriminate].
Defined.

End Piece.

(** ** The call in the world of the process *)

Section World.
Import RegExp.

(** Without the flag [y] the search of exec is the leftmost match. *)
Lemma scan_exec r s i : option_map fst (scan r false s i) = exec r s.
Proof.
  revert i. induction s as [|c s IH]; intros i; rewrite exec_eq;
    cbn [scan]; destruct (match_at r _); try reflexivity.
  apply IH.
Qed.

Lemma nth_error_fresh (l : list RegExpObject) o :
  nth_error (l ++ [o]) (length l) = Some o.
Proof. rewrite nth_error_app2 by lia. rewrite Nat.sub_diag. reflexivity. Qed.

(** [match] on the object a literal without flags was just evaluated to
    is the search from the start of the text, and leaves the world as it
    is. *)
Lemma literal_match p text c l :
  String_prototype_match text (length l)
    (World c (l ++ [NewRegExp p false false 0]))
  = (Done (String_match text p), World c (l ++ [NewRegExp p false false 0])).
Proof.
  unfold String_prototype_match, Symbol_match. cbn [w_regexps].
  rewrite nth_error_fresh. cbn [re_global negb].
  unfold RegExpBuiltinExec. cbn [w_regexps]. rewrite nth_error_fresh.
  cbn [re_global re_sticky re_lastIndex re_pattern orb skipn].
  change (length text <? 0) with false. cbv iota.
  pose proof (scan_exec p text 0) as E. unfold String_match.
  destruct (scan p false text 0) as [[a e]|]; cbn [option_map fst] in E;
    rewrite <- E; reflexivity.
Qed.

(** The call appends the same lines to every console. *)
Lemma extract_lines text :
  exists v written, forall c, extractJson text c = (Normal v, c ++ written).
Proof.
  destruct (matched_group (String_match text jsonRegex)) as [g|] eqn:E.
  - destruct (JSON.parse g) as [e|v] eqn:P.
    + exists JNull, [(js "Error extracting JSON:", e)]. intros c.
      rewrite (extract_fenced text g c E), P. reflexivity.
    + exists v, []. intros c.
      rewrite (extract_fenced text g c E), P, app_nil_r. reflexivity.
  - eexists _, []. intros c.
    rewrite (extract_fallback text c E), app_nil_r. reflexivity.
Qed.

(** The call in a world: the objects of its one or two literals are
    new, its searches start at 0, and what it returns and writes is what
    [extractJson] returns and writes. *)
Lemma extractJson_in_world_runs text v written w :
  extractJson text [] = (Normal v, written) ->
  extractJson_in_world text w
  = (Done v,
     World (w_console w ++ lifted written)
       (w_regexps w
          ++ NewRegExp jsonRegex false false 0
             :: match matched_group (String_match text jsonRegex) with
                | Some _ => []
                | None => [NewRegExp fallbackRegex false false 0]
                end)).
Proof.
  destruct w as [c l]. intros Hx.
  unfold extractJson_in_world, try_catchW.
  unfold bindW at 1. unfold new_RegExp at 1. cbn [w_console w_regexps].
  unfold bindW at 1. rewrite literal_match.
  destruct (matched_group (String_match text jsonRegex)) as [g|] eqn:E.
  - rewrite (extract_fenced text g [] E) in Hx.
    unfold bindW, JSON_parseW, retW, console_errorW.
    destruct (JSON.parse g) as [e|v'];
      injection Hx as <- <-; cbn [w_console w_regexps lifted map fst snd app];
      rewrite ?app_nil_r; reflexivity.
  - rewrite (extract_fallback text [] E) in Hx. injection Hx as <- <-.
    unfold bindW at 1. unfold new_RegExp. cbn [w_console w_regexps].
    unfold bindW at 1.
    rewrite (literal_match fallbackRegex text c
               (l ++ [NewRegExp jsonRegex false false 0])).
    cbn [lifted map]. rewrite app_nil_r, <- app_assoc. cbn [app].
    destruct (matched_group (String_match text fallbackRegex)) as [span|];
      [|reflexivity].
    unfold try_catchW, bindW, JSON_parseW, retW.
    destruct (JSON.parse span); reflexivity.
Qed.

(** The model can tell a stateful search: on one object with the flag
    [g], a second exec on the same text starts where the first ended and
    finds nothing. *)
Lemma shared_global_regexp_is_stateful :
  fst (bindW (RegExpBuiltinExec 0 (compact object_a1)) (fun first =>
       bindW (RegExpBuiltinExec 0 (compact object_a1)) (fun second =>
       retW (first, second)))
         (World [] [NewRegExp fallbackRegex true false 0]))
  = Done (Some (MatchArray (compact object_a1) (Some (compact object_a1))),
          None).
Proof. vm_compute. reflexivity. Qed.

(** C10.  The result of the call is a function of the text alone.  From
    every world - whatever the console holds and whatever RegExp objects
    earlier calls or other code left, under any flags and [lastIndex] -
    the call returns the same value and appends the same lines to the
    console; it leaves every RegExp object it finds as it is and only
    adds those of its own literals; and a second call on the same text,
    in the world the first left, returns the same value. *)
Theorem extractJson_stateless :
  forall text,
  exists v written,
    (forall c, extractJson text c = (Normal v, c ++ written))
    /\ (forall w, exists fresh,
          extractJson_in_world text w
          = (Done v,
             World (w_console w ++ lifted written) (w_regexps w ++ fresh)))
    /\ (forall w,
          fst (bindW (extractJson_in_world text) (fun first =>
               bindW (extractJson_in_world text) (fun second =>
               retW (first, second))) w)
          = Done (v, v)).
Proof.
  intros text. destruct (extract_lines text) as (v & written & Hx).
  pose proof (Hx []) as H0. cbn [app] in H0.
  exists v, written. split; [exact Hx|]. split.
  - intros w. eexists. apply (extractJson_in_world_runs text v written w H0).
  - intros w. unfold bindW.
    rewrite (extractJson_in_world_runs text v written w H0).
    rewrite (extractJson_in_world_runs text v written _ H0). reflexivity.
Qed.

End World.

(** ** The routes *)

Section Routes.
Import RegExp.

(** Every call of the extractor completes normally, with the absence
    signal or a parsed object, and appends at most its own lines. *)
Lemma extract_outcome text w :
  exists v out,
    extractJson text w = (Normal v, w ++ out)
    /\ (v = JNull \/ is_object v = true /\ exists s, JSON.parse s = inr v)
    /\ Forall (fun le => fst le = js "Error extracting JSON:") out.
Proof.
  destruct (matched_group (String_match text jsonRegex)) as [g|] eqn:E.
  - rewrite (extract_fenced text g w E).
    destruct (matched_group_brace text jsonRegex g (or_introl eq_refl) E)
      as [g' ->].
    destruct (JSON.parse (lbrace :: g')) as [e|v] eqn:P.
    + eexists JNull, [_]. split; [reflexivity|].
      split; [left; reflexivity | repeat constructor].
    + exists v, []. rewrite app_nil_r. split; [reflexivity|].
      split; [|constructor]. right.
      split; [apply (parse_brace_object g' v P) | eexists; exact P].
  - rewrite (extract_fallback text w E).
    destruct (matched_group (String_match text fallbackRegex)) as [g|] eqn:F.
    + destruct (matched_group_brace text fallbackRegex g
                  (or_intror eq_refl) F) as [g' ->].
      destruct (JSON.parse (lbrace :: g')) as [e|v] eqn:P.
      * exists JNull, []. rewrite app_nil_r. split; [reflexivity|].
        split; [left; reflexivity | constructor].
      * exists v, []. rewrite app_nil_r. split; [reflexivity|].
        split; [|constructor]. right.
        split; [apply (parse_brace_object g' v P) | eexists; exact P].
    + exists JNull, []. rewrite app_nil_r. split; [reflexivity|].
      split; [left; reflexivity | constructor].
Qed.

Lemma lift_extract text w :
  exists v out,
    lift (extractJson text) w = (Done v, w ++ out)
    /\ (v = JNull \/ is_object v = true /\ exists s, JSON.parse s = inr v)
    /\ labelled out.
Proof.
  destruct (extract_outcome text []) as (v & out & E & Hv & Hout).
  unfold lift. rewrite E. cbn [fst snd app].
  exists v, (lifted out). repeat split; try assumption.
  unfold labelled, lifted. rewrite Forall_map. cbn [fst]. exact Hout.
Qed.

(** The extractor as the handlers call it never raises. *)
Lemma call_extract_outcome input w :
  exists v out,
    call_extractJson input w = (Done v, w ++ out)
    /\ (v = JNull \/ is_object v = true /\ exists s, JSON.parse s = inr v)
    /\ labelled out.
Proof.
  assert (Hno : exists v out,
             bindH (console_errorH (js "Error extracting JSON:") TypeError)
               (fun _ => retH JNull) w = (Done v, w ++ out)
             /\ (v = JNull
                 \/ is_object v = true /\ exists s, JSON.parse s = inr v)
             /\ labelled out).
  { eexists JNull, [_]. split; [reflexivity|].
    split; [left; reflexivity | repeat constructor]. }
  destruct input; try exact Hno.
  destruct (lift_extract s w) as (v & out & E & Hv & Hout).
  exists v, out. repeat split; assumption.
Qed.

Lemma truthy_result rt v :
  v = JNull \/ is_object v = true /\ (exists s, JSON.parse s = inr v) ->
  truthy rt (Some v) = is_object v.
Proof.
  intros [-> | [Ho _]]; [reflexivity|]. destruct v; try discriminate.
  reflexivity.
Qed.

(** Lines 57-74 write nothing, and raise only where line 70 cannot
    serialize the body. *)
Lemma input_text_outcome rt req_body w :
  (exists negotiated, input_text rt req_body w = (Done negotiated, w))
  \/ (exists b,
         req_body = Some b /\ rt_stringify rt b = None
         /\ input_text rt req_body w = (Raised RangeError, w)).
Proof.
  assert (Hs : forall b,
             (exists negotiated,
                 bindH (JSON_stringify rt b)
                   (fun serialized => retH (Some (JStr serialized))) w
                 = (Done negotiated, w))
             \/ (rt_stringify rt b = None
                 /\ bindH (JSON_stringify rt b)
                      (fun serialized => retH (Some (JStr serialized))) w
                    = (Raised RangeError, w))).
  { intros b. unfold bindH, JSON_stringify, retH.
    destruct (rt_stringify rt b);
      [left; eexists; reflexivity | right; split; reflexivity]. }
  destruct req_body as [b|]; [|left; eexists; reflexivity].
  destruct b; unfold input_text;
    try (left; eexists; reflexivity);
    match goal with
    | |- context [if ?c then _ else _] => destruct c
    end;
    try (left; eexists; reflexivity);
    match goal with
    | |- context [if ?c then _ else _] => destruct c
    end;
    try (left; eexists; reflexivity);
    match goal with
    | |- context [first_value ?b] =>
        destruct (first_value b) as [[]|];
          try (left; eexists; reflexivity);
          (destruct (Hs b) as [[i E] | [N E]];
           [left; exists i; exact E
           |right; exists b; repeat split; assumption])
    end.
Qed.

(** The answers of the POST handler. *)
Lemma post_extract_cases rt req_body w :
  exists r out,
    post_extract rt req_body w = (Done r, w ++ out)
    /\ (res_status r = 400 /\ out = []
        \/ r = not_found /\ labelled out
        \/ (res_status r = 200 /\ labelled out
            /\ is_object (res_body r) = true
            /\ exists s, JSON.parse s = inr (res_body r))
        \/ (res_status r = 500
            /\ exists out' v,
                 out = out' ++ [(js "Server error:", RangeError)]
                 /\ labelled out'
                 /\ rt_stringify rt v = None
                 /\ (req_body = Some v
                     \/ is_object v = true
                        /\ exists s, JSON.parse s = inr v))).
Proof.
  unfold post_extract, try_catchH. unfold bindH at 1.
  destruct (input_text_outcome rt req_body w)
    as [[negotiated ->] | (b & Hb & Hn & ->)].
  - destruct negotiated as [inputText|].
    + destruct (truthy rt (Some inputText)); cbn [negb].
      * destruct (call_extract_outcome inputText w)
          as (v & out & E & Hv & Hout).
        unfold bindH at 1. rewrite E, (truthy_result rt v Hv).
        destruct Hv as [-> | [Ho Hp]].
        -- exists not_found, out. split; [reflexivity|].
           right. left. split; [reflexivity | exact Hout].
        -- rewrite Ho. unfold res_json, bindH, JSON_stringify, retH.
           destruct (rt_stringify rt v) eqn:Hs.
           ++ exists (Response 200 v), out. split; [reflexivity|].
              right. right. left. repeat split; assumption.
           ++ unfold console_errorH. eexists _, (out ++ [_]).
              rewrite app_assoc. split; [reflexivity|].
              right. right. right. split; [reflexivity|].
              exists out, v. repeat split; try assumption.
              right. split; assumption.
      * eexists _, []. rewrite app_nil_r. split; [reflexivity|].
        left. split; reflexivity.
    + eexists _, []. rewrite app_nil_r. split; [reflexivity|].
      left. split; reflexivity.
  - unfold bindH, console_errorH, retH. eexists _, [_].
    split; [reflexivity|].
    right. right. right. split; [reflexivity|].
    exists [], b. split; [reflexivity|]. split; [constructor|].
    split; [exact Hn|]. left. exact Hb.
Qed.


(** X5.  A success answer of the POST handler always carries a JSON
    object that [JSON.parse] produced: never [null], an array, a string
    or a number. *)
Theorem post_success_is_object rt req_body w r w' :
  post_extract rt req_body w = (Done r, w') ->
  res_status r = 200 ->
  is_object (res_body r) = true /\ exists s, JSON.parse s = inr (res_body r).
Proof.
  intros E Hs.
  destruct (post_extract_cases rt req_body w)
    as (r' & out & E' & H).
  rewrite E' in E. injection E as -> _.
  destruct H as [[H _] | [[-> _] | [(_ & _ & Ho & Hp) | [H _]]]].
  - rewrite H in Hs. discriminate.
  - discriminate.
  - split; assumption.
  - rewrite H in Hs. discriminate.
Qed.

(** X5 on the raw body [see {"a":1}]. *)
Lemma post_success_is_object_witness :
  post_extract example_runtime (Some (JStr text_member)) []
  = (Done (Response 200 object_a1), [])
  /\ is_object object_a1 = true
  /\ exists s, JSON.parse s = inr object_a1.
Proof.
  split; [reflexivity|].
  apply (post_success_is_object example_runtime (Some (JStr text_member))
           [] (Response 200 object_a1) []); reflexivity.
Defined.


End Routes.
